(** * M3U8 extractor: a shallow embedding of [m3u8_extractor.py]

    The extractor drives a browser through Playwright, watches the network
    responses of each embed page and reports the first URL that looks like
    an HLS playlist.  Everything the browser does is outside the program, so
    it is supplied here by an [environment]: for the n-th attempt, what the
    page does ([behaviour]), and for the pool, whether the engine starts.
    The program itself is written in a state-and-exception monad over the
    [extractor] object, one definition per Python function. *)

From Stdlib Require Import ZArith QArith Lia Ascii String.
From stdpp Require Import base list sorting strings gmap.

Local Open Scope string_scope.
Local Open Scope list_scope.
Local Open Scope Z_scope.

(* ===================================================================== *)
(** * Definitions *)
(* ===================================================================== *)

(** ** [re.search(pattern, url, re.IGNORECASE)]

    Patterns are kept in compiled form.  The fragment below covers literal
    characters (an escaped [\.] is the literal dot), the wildcard [.],
    concatenation, alternation and the star; matching goes by derivatives.
    URLs are ASCII, so ignoring case folds [A-Z] onto [a-z]. *)

Inductive regex : Type :=
| Void
| Eps
| Chr (c : ascii)
| Dot
| Cat (r1 r2 : regex)
| Alt (r1 r2 : regex)
| Star (r : regex).

Definition fold_case (c : ascii) : ascii :=
  let n := nat_of_ascii c in
  if ((65 <=? n) && (n <=? 90))%nat then ascii_of_nat (n + 32) else c.

Fixpoint lower (s : string) : string :=
  match s with
  | EmptyString => EmptyString
  | String c s' => String (fold_case c) (lower s')
  end.

Definition newline : ascii := ascii_of_nat 10.

Definition same_char (ignorecase : bool) (a c : ascii) : bool :=
  if ignorecase then Ascii.eqb (fold_case a) (fold_case c) else Ascii.eqb a c.

Fixpoint nullable (r : regex) : bool :=
  match r with
  | Void => false
  | Eps => true
  | Chr _ => false
  | Dot => false
  | Cat r1 r2 => nullable r1 && nullable r2
  | Alt r1 r2 => nullable r1 || nullable r2
  | Star _ => true
  end.

Fixpoint deriv (ignorecase : bool) (c : ascii) (r : regex) : regex :=
  match r with
  | Void => Void
  | Eps => Void
  | Chr a => if same_char ignorecase a c then Eps else Void
  | Dot => if Ascii.eqb c newline then Void else Eps
  | Cat r1 r2 =>
      if nullable r1
      then Alt (Cat (deriv ignorecase c r1) r2) (deriv ignorecase c r2)
      else Cat (deriv ignorecase c r1) r2
  | Alt r1 r2 => Alt (deriv ignorecase c r1) (deriv ignorecase c r2)
  | Star r1 => Cat (deriv ignorecase c r1) (Star r1)
  end.

(** Does some prefix of [s] match [r]? *)
Fixpoint match_here (ignorecase : bool) (r : regex) (s : string) : bool :=
  nullable r ||
  match s with
  | EmptyString => false
  | String c s' => match_here ignorecase (deriv ignorecase c r) s'
  end.

(** [re.search]: a match starting at any position of [s]. *)
Fixpoint re_search (ignorecase : bool) (r : regex) (s : string) : bool :=
  match_here ignorecase r s ||
  match s with
  | EmptyString => false
  | String _ s' => re_search ignorecase r s'
  end.

(** A pattern made of literal characters only, such as [r'\.m3u8']. *)
Fixpoint literal (s : string) : regex :=
  match s with
  | EmptyString => Eps
  | String c s' => Cat (Chr c) (literal s')
  end.

(** ** Configuration, results, statistics *)

Record configuration : Type := {
  timeout : Z;
  concurrency : Z;
  retries : Z;
  verbose : bool;
  m3u8_patterns : list regex;
  headless : bool
}.

(** [default_config]; the patterns are [r'playlist\.m3u8'], [r'index\.m3u8']
    and [r'\.m3u8']. *)
Definition default_config : configuration := {|
  timeout := 20000;
  concurrency := 10;
  retries := 1;
  verbose := false;
  m3u8_patterns := [literal "playlist.m3u8"; literal "index.m3u8"; literal ".m3u8"];
  headless := true
|}.

(** The dictionary returned by [extract_single].  Durations are floats in
    the source; they are rationals here. *)
Record result : Type := {
  embedUrl : string;
  m3u8Url : option string;
  success : bool;
  time : Q;
  error : option string
}.

Record statistics : Type := {
  successful : nat;
  failed : nat;
  total_time : Q;
  average_time : Q
}.

Definition zero_stats : statistics :=
  {| successful := 0; failed := 0; total_time := 0%Q; average_time := 0%Q |}.

(** ** Exceptions *)

Inductive exn : Type :=
| ValueError (msg : string)
| ZeroDivisionError (msg : string)
| IndexError (msg : string)
| AttributeError (msg : string)
| PlaywrightError (msg : string).

Definition str (e : exn) : string :=
  match e with
  | ValueError m | ZeroDivisionError m | IndexError m
  | AttributeError m | PlaywrightError m => m
  end.

Inductive outcome (A : Type) : Type :=
| Returned (a : A)
| Raised (e : exn).
Arguments Returned {A} a.
Arguments Raised {A} e.

(** ** What the browser does *)

(** What happens on a page while an attempt watches it, in order of
    occurrence: a network response, the end of [page.goto] (the page went
    network-idle, or the navigation raised), the timer of
    [config.timeout] ms. *)
Inductive event : Type :=
| Response (url : string)
| NavigationDone
| NavigationFailed (msg : string)
| TimeoutElapsed.

(** One attempt as the browser plays it.  [events] runs until the page is
    closed; a list without any completion is cut short by the timer, which
    always fires.  [body_error] is an exception raised inside the [try]
    body (by [page.on], by the wait or by the first [page.close()]);
    [close_error] is [page.close()] raising inside the handler.
    [finish_rank] orders the completions of attempts that run together. *)
Record behaviour : Type := {
  new_page_error : option string;
  events : list event;
  body_error : option string;
  close_error : option string;
  elapsed : Q;
  finish_rank : nat
}.

Record environment : Type := {
  start_error : option string;
  launch_error : option string;
  new_context_error : nat -> option string;
  stop_again_error : option string;
  page_behaviour : nat -> behaviour
}.

(** ** The extractor object *)

(** Ghost record of what the extractor did, oldest entry first. *)
Inductive entry : Type :=
| Launched
| ContextOpened (i : nat)
| Pass (urls : list string)
| Started (attempt : nat) (url : string) (context : nat)
| Finished (attempt : nat) (url : string)
| ContextClosed (i : nat)
| BrowserClosed
| DriverStopped.

(** [playwright] is [None] as long as the attribute was never assigned
    ([__init__] does not set it); [Some true] is a running driver and
    [Some false] a stopped one.  [attempts] counts the attempts dispatched
    so far and, with [journal], is ghost state. *)
Record extractor : Type := {
  config : configuration;
  playwright : option bool;
  browser : option unit;
  contexts : list nat;
  stats : statistics;
  attempts : nat;
  journal : list entry
}.

(** [M3U8Extractor(config)] *)
Definition init (cfg : configuration) : extractor := {|
  config := cfg;
  playwright := None;
  browser := None;
  contexts := [];
  stats := zero_stats;
  attempts := 0;
  journal := []
|}.

Definition set_playwright (p : option bool) (x : extractor) : extractor :=
  {| config := config x; playwright := p; browser := browser x;
     contexts := contexts x; stats := stats x; attempts := attempts x;
     journal := journal x |}.

Definition set_browser (b : option unit) (x : extractor) : extractor :=
  {| config := config x; playwright := playwright x; browser := b;
     contexts := contexts x; stats := stats x; attempts := attempts x;
     journal := journal x |}.

Definition set_contexts (c : list nat) (x : extractor) : extractor :=
  {| config := config x; playwright := playwright x; browser := browser x;
     contexts := c; stats := stats x; attempts := attempts x;
     journal := journal x |}.

Definition set_stats (s : statistics) (x : extractor) : extractor :=
  {| config := config x; playwright := playwright x; browser := browser x;
     contexts := contexts x; stats := s; attempts := attempts x;
     journal := journal x |}.

Definition set_attempts (n : nat) (x : extractor) : extractor :=
  {| config := config x; playwright := playwright x; browser := browser x;
     contexts := contexts x; stats := stats x; attempts := n;
     journal := journal x |}.

Definition record (e : entry) (x : extractor) : extractor :=
  {| config := config x; playwright := playwright x; browser := browser x;
     contexts := contexts x; stats := stats x; attempts := attempts x;
     journal := journal x ++ [e] |}.

(** ** The monad of methods: state of the object, or an exception *)

Definition M (A : Type) : Type := extractor -> outcome A * extractor.

Definition ret {A} (a : A) : M A := fun x => (Returned a, x).

Definition raise {A} (e : exn) : M A := fun x => (Raised e, x).

Definition bind {A B} (m : M A) (k : A -> M B) : M B :=
  fun x =>
    match m x with
    | (Returned a, x') => k a x'
    | (Raised e, x') => (Raised e, x')
    end.

Definition get : M extractor := fun x => (Returned x, x).

Definition modify (f : extractor -> extractor) : M unit :=
  fun x => (Returned tt, f x).

Definition lift {A} (o : outcome A) : M A := fun x => (o, x).

Declare Scope method_scope.
Delimit Scope method_scope with method.
Notation "v <- m ;; k" := (bind m (fun v => k))
  (at level 100, m at next level, right associativity) : method_scope.
Notation "m ;; k" := (bind m (fun _ => k))
  (at level 100, right associativity) : method_scope.
Local Open Scope method_scope.

(** [try: body except Exception as error: handler] *)
Definition try_except {A} (body : M A) (handler : exn -> M A) : M A :=
  fun x =>
    match body x with
    | (Returned a, x') => (Returned a, x')
    | (Raised e, x') => handler e x'
    end.

(** ** Python's [range] and list slices *)

Fixpoint range_up (fuel : nat) (i stop step : Z) : list Z :=
  match fuel with
  | O => []
  | S fuel' => if i <? stop then i :: range_up fuel' (i + step) stop step else []
  end.

Fixpoint range_down (fuel : nat) (i stop step : Z) : list Z :=
  match fuel with
  | O => []
  | S fuel' => if stop <? i then i :: range_down fuel' (i + step) stop step else []
  end.

(** [range(start, stop, step)] *)
Definition range (start stop step : Z) : outcome (list Z) :=
  if step =? 0 then Raised (ValueError "range() arg 3 must not be zero")
  else if 0 <? step then Returned (range_up (Z.to_nat (stop - start)) start stop step)
  else Returned (range_down (Z.to_nat (start - stop)) start stop step).

Definition clamp_index (len i : Z) : Z :=
  if i <? 0 then Z.max 0 (i + len) else Z.min i len.

(** [l[a:b]] *)
Definition slice {A} (l : list A) (a b : Z) : list A :=
  let len := Z.of_nat (length l) in
  let a' := clamp_index len a in
  let b' := clamp_index len b in
  take (Z.to_nat (b' - a')) (drop (Z.to_nat a') l).

(** ** One attempt: [extract_single] *)

(** The two variables the response handler closes over: [found_m3u8] and
    the future it resolves ([None] while pending). *)
Record watch : Type := {
  found_m3u8 : option string;
  m3u8_future : option string
}.

Definition unwatched : watch := {| found_m3u8 := None; m3u8_future := None |}.

(** Truth value of [found_m3u8]: [None] and the empty string are false. *)
Definition truthy (o : option string) : bool :=
  match o with
  | Some s => negb (String.eqb s "")
  | None => false
  end.

Definition done (future : option string) : bool :=
  match future with Some _ => true | None => false end.

(** The [for pattern in ...] loop of [handle_response], up to its [break]. *)
Fixpoint scan_patterns (patterns : list regex) (url : string) (w : watch) : watch :=
  match patterns with
  | [] => w
  | pattern :: rest =>
      if re_search true pattern url then
        {| found_m3u8 := Some url;
           m3u8_future := if done (m3u8_future w) then m3u8_future w else Some url |}
      else scan_patterns rest url w
  end.

Definition handle_response (patterns : list regex) (url : string) (w : watch) : watch :=
  if truthy (found_m3u8 w) then w else scan_patterns patterns url w.

(** Which of the three awaitables completed first. *)
Inductive signal : Type :=
| ManifestSeen
| TimerFired
| NavigationEnded.

(** [asyncio.wait([m3u8_future, timeout_task, goto_task], FIRST_COMPLETED)]:
    the events are played until one of the three completes; what is left of
    them is returned with the winner. *)
Fixpoint wait_first_completed (patterns : list regex) (evs : list event) (w : watch)
  : signal * watch * list event :=
  match evs with
  | [] => (TimerFired, w, [])
  | Response url :: rest =>
      let w' := handle_response patterns url w in
      if done (m3u8_future w') then (ManifestSeen, w', rest)
      else wait_first_completed patterns rest w'
  | NavigationDone :: rest => (NavigationEnded, w, rest)
  | NavigationFailed _ :: rest => (NavigationEnded, w, rest)
  | TimeoutElapsed :: rest => (TimerFired, w, rest)
  end.

(** Responses that still arrive while [page.close()] is awaited reach the
    handler too: it stays registered until the page is gone. *)
Definition late_response (patterns : list regex) (w : watch) (e : event) : watch :=
  match e with
  | Response url => handle_response patterns url w
  | _ => w
  end.

Definition watch_page (patterns : list regex) (evs : list event) : watch :=
  let '(_, w, rest) := wait_first_completed patterns evs unwatched in
  foldl (late_response patterns) w rest.

Definition record_success (elapsed : Q) (s : statistics) : statistics :=
  let n := S (successful s) in
  let total := (total_time s + elapsed)%Q in
  {| successful := n;
     failed := failed s;
     total_time := total;
     average_time := (total / inject_Z (Z.of_nat n))%Q |}.

Definition record_failure (s : statistics) : statistics :=
  {| successful := successful s;
     failed := S (failed s);
     total_time := total_time s;
     average_time := average_time s |}.

Definition update_stats (f : statistics -> statistics) : M unit :=
  modify (fun x => set_stats (f (stats x)) x).

Definition not_found : string := "M3U8 URL not found within timeout".

Section Program.

Variable env : environment.

(** The part of [extract_single] that runs before its first suspension:
    the attempt is handed its number and is in flight from here on. *)
Definition begin_attempt (embed_url : string) (context : nat) : M nat :=
  x <- get;;
  let n := attempts x in
  modify (fun x => record (Started n embed_url context) (set_attempts (S n) x));;
  ret n.

(** The rest of [extract_single], from [context.new_page()] to the
    [return]: the statistics are updated and the result is built without
    any suspension in between.  However it ends, the attempt is no longer
    in flight. *)
Definition finish_attempt (n : nat) (embed_url : string) : M result :=
  let b := page_behaviour env n in
  modify (record (Finished n embed_url));;
  match new_page_error b with
  | Some e => raise (PlaywrightError e)
  | None =>
      try_except
        (match body_error b with
         | Some e => raise (PlaywrightError e)
         | None =>
             x <- get;;
             let w := watch_page (m3u8_patterns (config x)) (events b) in
             if truthy (found_m3u8 w) then
               update_stats (record_success (elapsed b));;
               ret {| embedUrl := embed_url;
                      m3u8Url := found_m3u8 w;
                      success := true;
                      time := elapsed b;
                      error := None |}
             else
               update_stats record_failure;;
               ret {| embedUrl := embed_url;
                      m3u8Url := None;
                      success := false;
                      time := elapsed b;
                      error := Some not_found |}
         end)
        (fun error =>
           update_stats record_failure;;
           match close_error b with
           | Some e => raise (PlaywrightError e)
           | None =>
               ret {| embedUrl := embed_url;
                      m3u8Url := None;
                      success := false;
                      time := elapsed b;
                      error := Some (str error) |}
           end)
  end.

Definition extract_single (embed_url : string) (context : nat) : M result :=
  n <- begin_attempt embed_url context;;
  finish_attempt n embed_url.

(** ** The pool: [initialize] *)

Fixpoint new_contexts (ids : list nat) : M unit :=
  match ids with
  | [] => ret tt
  | i :: rest =>
      match new_context_error env i with
      | Some e => raise (PlaywrightError e)
      | None =>
          modify (fun x => record (ContextOpened i) (set_contexts (contexts x ++ [i]) x));;
          new_contexts rest
      end
  end.

Definition initialize : M unit :=
  match start_error env with
  | Some e => raise (PlaywrightError e)
  | None =>
      modify (set_playwright (Some true));;
      match launch_error env with
      | Some e => raise (PlaywrightError e)
      | None =>
          modify (fun x => record Launched (set_browser (Some tt) x));;
          x <- get;;
          new_contexts (seq 0 (Z.to_nat (concurrency (config x))))
      end
  end.

(** ** A batch: [extract_batch] *)

(** The [for idx, url in enumerate(batch)] loop: one coroutine per URL,
    bound to the context at [idx % len(self.contexts)]. *)
Fixpoint make_tasks (idx : nat) (batch : list string) : M (list (string * nat)) :=
  match batch with
  | [] => ret []
  | url :: rest =>
      x <- get;;
      let n := length (contexts x) in
      if (n =? 0)%nat then raise (ZeroDivisionError "integer modulo by zero")
      else
        match contexts x !! (idx mod n)%nat with
        | None => raise (IndexError "list index out of range")
        | Some context =>
            tasks <- make_tasks (S idx) rest;;
            ret ((url, context) :: tasks)
        end
  end.

Fixpoint start_all (tasks : list (string * nat)) : M (list (nat * string)) :=
  match tasks with
  | [] => ret []
  | (url, context) :: rest =>
      n <- begin_attempt url context;;
      started <- start_all rest;;
      ret ((n, url) :: started)
  end.

(** Completion order inside a group, as the environment has it. *)
Definition earlier (a b : nat * (nat * string)) : Prop :=
  (finish_rank (page_behaviour env (fst (snd a)))
   <= finish_rank (page_behaviour env (fst (snd b))))%nat.

#[local] Instance earlier_dec : RelDecision earlier.
Proof. intros a b. unfold earlier. apply _. Defined.

(** Each completion stores its result in the slot of its position; the
    first exception ends the wait. *)
Fixpoint complete_all (order : list (nat * (nat * string)))
    (slots : list (option result)) : M (list (option result)) :=
  match order with
  | [] => ret slots
  | (idx, (n, url)) :: rest =>
      r <- finish_attempt n url;;
      complete_all rest (<[idx := Some r]> slots)
  end.

(** [await asyncio.gather] on the tasks of a group: every task is started,
    the tasks complete in the environment's order, and the results come
    back in the order of [tasks].  An exception in a task is raised at
    once; what the other tasks still do in the background is not followed. *)
Definition gather (tasks : list (string * nat)) : M (list result) :=
  started <- start_all tasks;;
  let order := merge_sort earlier (imap (fun i t => (i, t)) started) in
  slots <- complete_all order (replicate (length tasks) None);;
  ret (omap id slots).

Fixpoint batch_loop (embed_urls : list string) (starts : list Z)
    (results : list result) : M (list result) :=
  match starts with
  | [] => ret results
  | i :: rest =>
      x <- get;;
      let batch := slice embed_urls i (i + concurrency (config x)) in
      tasks <- make_tasks 0 batch;;
      batch_results <- gather tasks;;
      batch_loop embed_urls rest (results ++ batch_results)
  end.

Definition extract_batch (embed_urls : list string) : M (list result) :=
  x <- get;;
  (match browser x with None => initialize | Some _ => ret tt end);;
  modify (record (Pass embed_urls));;
  x <- get;;
  starts <- lift (range 0 (Z.of_nat (length embed_urls)) (concurrency (config x)));;
  batch_loop embed_urls starts [].

(** ** Retry: [extract] *)

(** Body of the inner loop at index [i]: [results[i] = retry_result] when
    the URLs agree and the retry succeeded. *)
Definition replace_at (retry_result : result) (results : list result) (i : nat)
  : list result :=
  match results !! i with
  | Some r =>
      if String.eqb (embedUrl r) (embedUrl retry_result) && success retry_result
      then <[i := retry_result]> results
      else results
  | None => results
  end.

Definition merge_one (results : list result) (retry_result : result) : list result :=
  foldl (replace_at retry_result) results (seq 0 (length results)).

Definition merge (retry_results results : list result) : list result :=
  foldl merge_one results retry_results.

Definition extract (embed_urls : list string) : M (list result) :=
  results <- extract_batch embed_urls;;
  x <- get;;
  if 0 <? retries (config x) then
    let failed := filter (fun r => success r = false) results in
    match failed with
    | [] => ret results
    | _ :: _ =>
        let retry_urls := map embedUrl failed in
        retry_results <- extract_batch retry_urls;;
        ret (merge retry_results results)
    end
  else ret results.

(** ** Teardown and statistics *)

Fixpoint close_contexts (cs : list nat) : M unit :=
  match cs with
  | [] => ret tt
  | c :: rest => modify (record (ContextClosed c));; close_contexts rest
  end.

Definition close : M unit :=
  x <- get;;
  close_contexts (contexts x);;
  (match browser x with
   | Some _ => modify (record BrowserClosed)
   | None => ret tt
   end);;
  match playwright x with
  | None => raise (AttributeError "'M3U8Extractor' object has no attribute 'playwright'")
  | Some running =>
      (if running then ret tt
       else match stop_again_error env with
            | Some e => raise (PlaywrightError e)
            | None => ret tt
            end);;
      modify (fun x => record DriverStopped (set_playwright (Some false) x));;
      modify (set_contexts []);;
      modify (set_browser None)
  end.

Definition get_stats : M statistics :=
  x <- get;; ret (stats x).

Definition reset_stats : M unit :=
  modify (set_stats zero_stats).

(** [extract_m3u8(embed_urls, config)], with [cfg] the merged configuration. *)
Definition extract_m3u8 (embed_urls : list string) (cfg : configuration)
  : outcome (list result) * extractor :=
  try_except
    (results <- extract embed_urls;; close;; ret results)
    (fun error => close;; raise error)
    (init cfg).

End Program.

(** ** Notions used to state the properties *)

(** Some configured pattern matches [url], patterns tried in order. *)
Definition matches_any (patterns : list regex) (url : string) : bool :=
  existsb (fun pattern => re_search true pattern url) patterns.

(** [m] is the text [p], up to case when [ignorecase] is set. *)
Fixpoint same_text (ignorecase : bool) (p m : string) : bool :=
  match p, m with
  | EmptyString, EmptyString => true
  | String a p', String c m' => same_char ignorecase a c && same_text ignorecase p' m'
  | _, _ => false
  end.

(** The handler's variables once [url] has been recorded. *)
Definition recorded (url : string) : watch :=
  {| found_m3u8 := Some url; m3u8_future := Some url |}.

Definition is_matching_response (patterns : list regex) (e : event) : bool :=
  match e with
  | Response url => matches_any patterns url
  | _ => false
  end.

(** The two shapes a result can have. *)
Definition is_success (r : result) : Prop :=
  success r = true /\ (exists url, m3u8Url r = Some url) /\ error r = None.

Definition is_failure (r : result) : Prop :=
  success r = false /\ m3u8Url r = None /\ (exists msg, error r = Some msg).

(** The invariant of the statistics. *)
Definition consistent (s : statistics) : Prop :=
  (successful s = 0%nat -> average_time s = 0%Q) /\
  ((0 < successful s)%nat ->
   average_time s = (total_time s / inject_Z (Z.of_nat (successful s)))%Q).

(** Attempts in flight after a journal: started and not yet finished. *)
Definition weight (e : entry) : Z :=
  match e with
  | Started _ _ _ => 1
  | Finished _ _ => -1
  | _ => 0
  end.

Definition in_flight (j : list entry) : Z :=
  foldr (fun e acc => weight e + acc) 0 j.

(** URLs attempted, in dispatch order, and the batch passes that were run. *)
Definition dispatched (j : list entry) : list string :=
  omap (fun e => match e with Started _ url _ => Some url | _ => None end) j.

Definition passes (j : list entry) : list (list string) :=
  omap (fun e => match e with Pass urls => Some urls | _ => None end) j.

(** The groups [extract_batch] cuts its input into. *)
Definition groups (embed_urls : list string) (c : Z) : list (list string) :=
  match range 0 (Z.of_nat (length embed_urls)) c with
  | Returned starts => map (fun i => slice embed_urls i (i + c)) starts
  | Raised _ => []
  end.

(** What an entry of the first pass ends up as: the last successful retry
    result for its URL, or itself. *)
Definition supersede (r retry_result : result) : result :=
  if String.eqb (embedUrl r) (embedUrl retry_result) && success retry_result
  then retry_result else r.

Definition superseded_by (retry_results : list result) (r : result) : result :=
  foldl supersede r retry_results.

(** A browser in which pages open and cleanup works, and an engine that
    starts. *)
Definition page_opens (b : behaviour) : Prop := new_page_error b = None.

Definition cleanup_works (b : behaviour) : Prop := close_error b = None.

Definition engine_starts (env : environment) : Prop :=
  start_error env = None /\ launch_error env = None /\
  forall i, new_context_error env i = None.

Definition pages_behave (env : environment) : Prop :=
  forall n, page_opens (page_behaviour env n) /\ cleanup_works (page_behaviour env n).

(** An extractor whose pool, if it has a browser at all, has a context. *)
Definition usable (x : extractor) : Prop :=
  browser x = None \/ contexts x <> [].

(** What attempt number [n] returns for [url]: of the extractor it reads
    the configuration only (see [finish_attempt_outcome]). *)
Definition attempt_outcome (env : environment) (cfg : configuration)
    (n : nat) (url : string) : outcome result :=
  fst (finish_attempt env n url (init cfg)).

Definition returned {A} (o : outcome A) : option A :=
  match o with Returned a => Some a | Raised _ => None end.

(** The pool and the configuration are the same in [x] and [x']. *)
Definition same_pool (x x' : extractor) : Prop :=
  config x' = config x /\ playwright x' = playwright x
  /\ browser x' = browser x /\ contexts x' = contexts x.

(** No more than [c] attempts in flight at any point of the journal [j]. *)
Definition bounded (c : Z) (j : list entry) : Prop :=
  forall p, p `prefix_of` j -> in_flight p <= c.

Definition is_started (e : entry) : Prop :=
  match e with Started _ _ _ => True | _ => False end.

Definition is_finished (e : entry) : Prop :=
  match e with Finished _ _ => True | _ => False end.

Definition started_ids (j : list entry) : list nat :=
  omap (fun e => match e with Started n _ _ => Some n | _ => None end) j.

Definition finished_ids (j : list entry) : list nat :=
  omap (fun e => match e with Finished n _ => Some n | _ => None end) j.

(** The journal entries of a group being dispatched from attempt [n0] on. *)
Definition started_entries (n0 : nat) (tasks : list (string * nat)) : list entry :=
  imap (fun j t => Started (n0 + j) (fst t) (snd t)) tasks.

Definition finished_entry (t : nat * (nat * string)) : entry :=
  Finished (fst (snd t)) (snd (snd t)).

Definition is_pool_entry (e : entry) : Prop :=
  match e with Launched | ContextOpened _ => True | _ => False end.

(** The journal of one group: its URLs are dispatched in order, then the
    same attempts finish, in some order. *)
Definition group_block (g : list string) (block : list entry) : Prop :=
  exists ss fs,
    block = ss ++ fs
    /\ Forall is_started ss /\ Forall is_finished fs
    /\ dispatched ss = g
    /\ finished_ids fs ≡ₚ started_ids ss.

(** The URLs [extract] submits again after a first pass. *)
Definition retry_urls_of (first : list result) : list string :=
  map embedUrl (filter (fun r => success r = false) first).

(** ** Scenarios *)

(** A page that plays [evs] and raises nowhere. *)
Definition plays (evs : list event) (ms : Q) (rank : nat) : behaviour :=
  {| new_page_error := None; events := evs; body_error := None;
     close_error := None; elapsed := ms; finish_rank := rank |}.

(** A browser whose engine starts and whose n-th page is [page n]. *)
Definition browser_with (page : nat -> behaviour) : environment :=
  {| start_error := None; launch_error := None;
     new_context_error := fun _ => None; stop_again_error := None;
     page_behaviour := page |}.

(** The page loads a script, goes idle, and the timer is still running. *)
Definition idle_page : behaviour :=
  plays [Response "https://a.test/embed/app.js"; NavigationDone; TimeoutElapsed]
        1500%Q 0.

(** The page requests its playlist 500 ms in. *)
Definition streaming_page : behaviour :=
  plays [Response "https://a.test/embed/app.js";
         Response "https://cdn.test/live/playlist.m3u8"; NavigationDone]
        500%Q 1.

(** The navigation raises. *)
Definition broken_page : behaviour :=
  plays [NavigationFailed "net::ERR_NAME_NOT_RESOLVED"; TimeoutElapsed] 40%Q 0.

(** Three embeds on a pool of two: the first streams but is the last of
    its group to finish, the second goes idle, the third cannot be reached;
    on the retry the idle one streams. *)
Definition small_config : configuration :=
  {| timeout := 20000; concurrency := 2; retries := 1; verbose := false;
     m3u8_patterns := m3u8_patterns default_config; headless := true |}.

Definition three_embeds : list string :=
  ["https://a.test/embed/1"; "https://a.test/embed/2"; "https://b.test/embed/3"].

Definition three_pages (n : nat) : behaviour :=
  match n with
  | 0%nat => streaming_page
  | 1%nat => idle_page
  | 2%nat => broken_page
  | 3%nat => streaming_page
  | _ => broken_page
  end.

(** The same embed submitted twice: its first attempt streams, its second
    goes idle, and the retry of the second streams after 800 ms. *)
Definition slow_streaming_page : behaviour :=
  plays [Response "https://cdn.test/live/playlist.m3u8"] 800%Q 0.

Definition twice_embeds : list string :=
  ["https://a.test/embed/1"; "https://a.test/embed/1"].

Definition twice_pages (n : nat) : behaviour :=
  match n with
  | 0%nat => streaming_page
  | 1%nat => idle_page
  | _ => slow_streaming_page
  end.

Definition streamed (url : string) (ms : Q) : result :=
  {| embedUrl := url; m3u8Url := Some "https://cdn.test/live/playlist.m3u8";
     success := true; time := ms; error := None |}.

Definition not_streamed (url : string) (ms : Q) : result :=
  {| embedUrl := url; m3u8Url := None; success := false; time := ms;
     error := Some not_found |}.

(** ** Further notions *)

(** The response URLs among the events of a page, in order. *)
Definition responses (evs : list event) : list string :=
  omap (fun e => match e with Response url => Some url | _ => None end) evs.

(** Successes and failures in a list of results. *)
Definition wins (rs : list result) : nat :=
  length (filter (fun r => success r = true) rs).

Definition losses (rs : list result) : nat :=
  length (filter (fun r => success r = false) rs).

(** The same counts on what attempts returned or raised. *)
Definition won (o : outcome result) : bool :=
  match o with Returned r => success r | Raised _ => false end.

Definition lost (o : outcome result) : bool :=
  match o with Returned r => negb (success r) | Raised _ => false end.

(** Browser launches and contexts opened, as a journal records them. *)
Definition launches (j : list entry) : nat :=
  length (omap (fun e => match e with Launched => Some tt | _ => None end) j).

Definition opened (j : list entry) : list nat :=
  omap (fun e => match e with ContextOpened i => Some i | _ => None end) j.

(** The contexts the attempts of a journal were bound to, in dispatch order. *)
Definition bound_contexts (j : list entry) : list nat :=
  omap (fun e => match e with Started _ _ context => Some context | _ => None end) j.

(** A page that requests a master playlist first and the stream's own
    playlist after it. *)
Definition two_manifests_page : behaviour :=
  plays [Response "https://a.test/embed/app.js";
         Response "https://cdn.test/live/master.m3u8";
         Response "https://cdn.test/live/playlist.m3u8"; NavigationDone]
        600%Q 0.




(** A browser that launches but cannot open its first context. *)
Definition contextless_browser : environment :=
  {| start_error := None; launch_error := None;
     new_context_error := fun i => match i with
                                   | 0%nat => Some "Target closed"
                                   | _ => None
                                   end;
     stop_again_error := None;
     page_behaviour := fun _ => streaming_page |}.

(** A configuration with a negative concurrency. *)
Definition backwards_config : configuration :=
  {| timeout := 20000; concurrency := -1; retries := 1; verbose := false;
     m3u8_patterns := m3u8_patterns default_config; headless := true |}.

(** ** The constructor: [__init__] and its configuration dictionary *)

(** The values a configuration dictionary holds. *)
Inductive py_value : Type :=
| PyInt (n : Z)
| PyBool (b : bool)
| PyPatterns (patterns : list regex)
| PyStr (s : string)
| PyNone.

(** [default_config], as the dictionary it is in the source. *)
Definition default_dict : gmap string py_value :=
  list_to_map
    [("timeout", PyInt 20000);
     ("concurrency", PyInt 10);
     ("retries", PyInt 1);
     ("verbose", PyBool false);
     ("m3u8_patterns",
      PyPatterns [literal "playlist.m3u8"; literal "index.m3u8"; literal ".m3u8"]);
     ("headless", PyBool true)].

(** [{**default_config, **(config or {})}]: the caller's entries win. *)
Definition merged_config (config : option (gmap string py_value))
  : gmap string py_value :=
  match config with
  | Some c => c
  | None => ∅
  end ∪ default_dict.

(** The six entries the methods read, at the types they use them at.  The
    constructor itself checks nothing: a dictionary with an entry of another
    type still builds an extractor in the source, whose methods then fail or
    misbehave where they read the entry.  The typed record cannot hold such
    an entry, and [None] stands for that case. *)
Definition configuration_of (d : gmap string py_value) : option configuration :=
  match d !! "timeout", d !! "concurrency", d !! "retries",
        d !! "verbose", d !! "m3u8_patterns", d !! "headless" with
  | Some (PyInt t), Some (PyInt c), Some (PyInt r),
    Some (PyBool v), Some (PyPatterns ps), Some (PyBool h) =>
      Some {| timeout := t; concurrency := c; retries := r; verbose := v;
              m3u8_patterns := ps; headless := h |}
  | _, _, _, _, _, _ => None
  end.

(** [M3U8Extractor(config)] *)
Definition M3U8Extractor (config : option (gmap string py_value)) : option extractor :=
  init <$> configuration_of (merged_config config).

(** The configuration [example_streamed.py] asks for. *)
Definition streamed_dict : gmap string py_value :=
  list_to_map
    [("concurrency", PyInt 10); ("timeout", PyInt 20000);
     ("retries", PyInt 1); ("verbose", PyBool true)].

Definition streamed_config : configuration :=
  {| timeout := 20000; concurrency := 10; retries := 1; verbose := true;
     m3u8_patterns := m3u8_patterns default_config; headless := true |}.

(** ** The example driver: [extract_streams] of [example_streamed.py] *)

(** One entry of [sources], as [get_streamed_matches] builds it. *)
Record source : Type := {
  src_match : string;
  src_source : string;
  src_sourceId : string;
  src_embedUrl : string;
  src_category : string;
  src_startTime : option Z
}.

(** One entry of the list [extract_streams] returns. *)
Record stream : Type := {
  out_match : string;
  out_source : string;
  out_sourceId : string;
  out_embedUrl : string;
  out_m3u8Url : option string;
  out_extractionTime : Q
}.

(** [next(s for s in sources if s['embedUrl'] == url)]; [None] stands for
    the StopIteration of an exhausted generator. *)
Definition next_source (sources : list source) (url : string) : option source :=
  List.find (fun s => String.eqb (src_embedUrl s) url) sources.

(** The loop that shows the first ten successes: it prints only, but each
    round looks the source of its result up. *)
Definition show_successful (sources : list source) (successful : list result)
  : option unit :=
  match successful with
  | [] => Some tt
  | _ :: _ =>
      _ ← mapM (fun r => next_source sources (embedUrl r)) (slice successful 0 10);
      Some tt
  end.

(** [count / len(results) * 100]; [None] stands for ZeroDivisionError. *)
Definition percentage (count total : nat) : option Q :=
  match total with
  | O => None
  | S _ => Some (inject_Z (Z.of_nat count) / inject_Z (Z.of_nat total) * 100)%Q
  end.

Definition show_statistics (st : statistics) (results : list result) : option unit :=
  _ ← percentage (successful st) (length results);
  _ ← percentage (failed st) (length results);
  Some tt.

(** One entry of the returned list; the source is looked up once per field. *)
Definition format_stream (sources : list source) (r : result) : option stream :=
  a ← next_source sources (embedUrl r);
  b ← next_source sources (embedUrl r);
  c ← next_source sources (embedUrl r);
  Some {| out_match := src_match a;
          out_source := src_source b;
          out_sourceId := src_sourceId c;
          out_embedUrl := embedUrl r;
          out_m3u8Url := m3u8Url r;
          out_extractionTime := time r |}.

(** Step 6 of [extract_streams], after the extractor is closed. *)
Definition format_results (sources : list source) (st : statistics)
    (results : list result) : option (list stream) :=
  let successful := filter (fun r => success r = true) results in
  _ ← show_successful sources successful;
  _ ← show_statistics st results;
  mapM (format_stream sources) successful.

(** [extract_streams], given what [get_streamed_matches] came back with.
    The first component is the returned value ([None] is the bare
    [return]); the second is the extractor, once it is constructed.  The
    extractor is built from [streamed_dict], which the constructor turns
    into [streamed_config]. *)
Definition extract_streams (env : environment) (fetched : outcome (list source))
  : option (list stream) * option extractor :=
  match fetched with
  | Raised _ => (Some [], None)
  | Returned [] => (None, None)
  | Returned sources =>
      let embed_urls := map src_embedUrl sources in
      match extract env embed_urls (init streamed_config) with
      | (Raised _, x1) => (Some [], Some x1)
      | (Returned results, x1) =>
          match close env x1 with
          | (Raised _, x2) => (Some [], Some x2)
          | (Returned _, x2) =>
              match format_results sources (stats x2) results with
              | Some streams => (Some streams, Some x2)
              | None => (Some [], Some x2)
              end
          end
      end
  end.

(** [s] is the first source whose embed URL is [url]. *)
Definition first_with (sources : list source) (url : string) (s : source) : Prop :=
  exists before after,
    sources = before ++ s :: after
    /\ src_embedUrl s = url
    /\ Forall (fun s' => src_embedUrl s' <> url) before.

(** [o] reports result [r], attributed to the first source with its URL. *)
Definition reports (sources : list source) (r : result) (o : stream) : Prop :=
  exists s,
    first_with sources (embedUrl r) s
    /\ o = {| out_match := src_match s;
              out_source := src_source s;
              out_sourceId := src_sourceId s;
              out_embedUrl := embedUrl r;
              out_m3u8Url := m3u8Url r;
              out_extractionTime := time r |}.

(** Two sources of two matches that share one embed page. *)
Definition twice_sources : list source :=
  [ {| src_match := "Match A"; src_source := "alpha"; src_sourceId := "a-1";
       src_embedUrl := "https://a.test/embed/1";
       src_category := "football"; src_startTime := Some 1700000000000 |};
    {| src_match := "Match B"; src_source := "bravo"; src_sourceId := "b-7";
       src_embedUrl := "https://a.test/embed/1";
       src_category := "Other"; src_startTime := None |} ].

(** A context that can no longer open a page: [context.new_page()] raises. *)
Definition closed_context_page : behaviour :=
  {| new_page_error := Some "Target page, context or browser has been closed";
     events := []; body_error := None; close_error := None;
     elapsed := 0%Q; finish_rank := 0 |}.

(** A page that is gone while the attempt waits: the body of the [try]
    raises, and so does [page.close()] in the handler. *)
Definition vanished_page : behaviour :=
  {| new_page_error := None;
     events := [Response "https://a.test/embed/app.js"];
     body_error := Some "Page crashed";
     close_error := Some "Target page, context or browser has been closed";
     elapsed := 40%Q; finish_rank := 0 |}.

(** Three pages, the second on a context that cannot open one. *)
Definition second_unopened (n : nat) : behaviour :=
  match n with
  | 1%nat => closed_context_page
  | _ => streaming_page
  end.

(* ===================================================================== *)
(** * Properties *)
(* ===================================================================== *)

(** ** Matching ignores case *)

Lemma newline_fold_case c : Ascii.eqb c newline = Ascii.eqb (fold_case c) newline.
Proof. destruct c as [[] [] [] [] [] [] [] []]; reflexivity. Qed.

Lemma deriv_fold_case c c' r :
  fold_case c = fold_case c' -> deriv true c r = deriv true c' r.
Proof.
  intros Hc. induction r as [| |a| |r1 IH1 r2 IH2|r1 IH1 r2 IH2|r1 IH1]; simpl.
  - reflexivity.
  - reflexivity.
  - unfold same_char. now rewrite Hc.
  - rewrite (newline_fold_case c), (newline_fold_case c'). now rewrite Hc.
  - now rewrite IH1, IH2.
  - now rewrite IH1, IH2.
  - now rewrite IH1.
Qed.

Lemma match_here_lower s : forall s' r,
  lower s = lower s' -> match_here true r s = match_here true r s'.
Proof.
  induction s as [|c s IH]; intros [|c' s'] r Hl; simpl in *; try discriminate.
  - reflexivity.
  - injection Hl as Hc Hs. rewrite (deriv_fold_case c c' r Hc).
    now rewrite (IH s' _ Hs).
Qed.

Lemma re_search_lower s : forall s' r,
  lower s = lower s' -> re_search true r s = re_search true r s'.
Proof.
  induction s as [|c s IH]; intros [|c' s'] r Hl; try discriminate.
  - reflexivity.
  - cbn [re_search]. rewrite (match_here_lower (String c s) (String c' s') r Hl).
    injection Hl as _ Hs. now rewrite (IH s' r Hs).
Qed.

Lemma matches_any_lower patterns s s' :
  lower s = lower s' -> matches_any patterns s = matches_any patterns s'.
Proof.
  intros Hl. unfold matches_any. induction patterns as [|p ps IH]; simpl.
  - reflexivity.
  - now rewrite (re_search_lower s s' p Hl), IH.
Qed.

(** ** Literal patterns search for a piece of text *)

Lemma match_here_void ic r s : match_here ic (Cat Void r) s = false.
Proof. induction s as [|c s IH]; simpl; [reflexivity | exact IH]. Qed.

Lemma match_here_alt ic s : forall r1 r2,
  match_here ic (Alt r1 r2) s = match_here ic r1 s || match_here ic r2 s.
Proof.
  induction s as [|c s IH]; intros r1 r2; simpl.
  - now rewrite !orb_false_r.
  - rewrite IH.
    destruct (nullable r1), (nullable r2), (match_here ic (deriv ic c r1) s);
      reflexivity.
Qed.

Lemma match_here_eps ic r s : match_here ic (Cat Eps r) s = match_here ic r s.
Proof.
  destruct s as [|c s]; simpl; [reflexivity|].
  now rewrite match_here_alt, match_here_void.
Qed.

Lemma match_here_literal ic p : forall s,
  match_here ic (literal p) s = true <->
  exists m rest, s = (m ++ rest)%string /\ same_text ic p m = true.
Proof.
  induction p as [|a p IH]; intros s.
  - split; [intros _; exists "", s; now split|].
    intros _. now destruct s.
  - cbn [literal]. destruct s as [|c s].
    + split; [discriminate|]. intros (m & rest & Hs & Hm).
      destruct m; [discriminate Hm | discriminate Hs].
    + cbn [match_here nullable deriv andb orb].
      destruct (same_char ic a c) eqn:Hac.
      * rewrite match_here_eps, IH. split.
        -- intros (m & rest & -> & Hm). exists (String c m), rest.
           split; [reflexivity|]. simpl. now rewrite Hac.
        -- intros (m & rest & Hs & Hm). destruct m as [|c' m]; [discriminate Hm|].
           injection Hs as <- ->. simpl in Hm. rewrite Hac in Hm.
           exists m, rest. now split.
      * rewrite match_here_void. split; [discriminate|].
        intros (m & rest & Hs & Hm). destruct m as [|c' m]; [discriminate Hm|].
        injection Hs as <- ->. simpl in Hm. now rewrite Hac in Hm.
Qed.

(** [re.search] with a literal pattern finds the pattern's text somewhere in
    the URL, up to case under [re.IGNORECASE]. *)
Lemma re_search_literal ic p : forall s,
  re_search ic (literal p) s = true <->
  exists pre m rest, s = (pre ++ m ++ rest)%string /\ same_text ic p m = true.
Proof.
  induction s as [|c s IH].
  - cbn [re_search]. rewrite orb_false_r, match_here_literal. split.
    + intros (m & rest & Hs & Hm). exists "", m, rest. now split.
    + intros (pre & m & rest & Hs & Hm). destruct pre; [|discriminate Hs].
      exists m, rest. now split.
  - cbn [re_search]. rewrite orb_true_iff, match_here_literal, IH. split.
    + intros [(m & rest & Hs & Hm)|(pre & m & rest & -> & Hm)].
      * exists "", m, rest. now split.
      * exists (String c pre), m, rest. now split.
    + intros (pre & m & rest & Hs & Hm). destruct pre as [|c' pre].
      * left. exists m, rest. now split.
      * right. injection Hs as <- ->. exists pre, m, rest. now split.
Qed.

(** ** The response handler *)

Lemma scan_patterns_spec patterns url w :
  scan_patterns patterns url w =
  if matches_any patterns url
  then {| found_m3u8 := Some url;
          m3u8_future := if done (m3u8_future w) then m3u8_future w else Some url |}
  else w.
Proof.
  unfold matches_any. induction patterns as [|p ps IH]; simpl.
  - reflexivity.
  - destruct (re_search true p url); simpl; [reflexivity | exact IH].
Qed.

Lemma truthy_nonempty url : url <> "" -> truthy (Some url) = true.
Proof.
  intros Hne. simpl. destruct (String.eqb_spec url ""); [contradiction | reflexivity].
Qed.

Lemma handle_response_found patterns url w :
  truthy (found_m3u8 w) = true -> handle_response patterns url w = w.
Proof. intros Ht. unfold handle_response. now rewrite Ht. Qed.

Lemma handle_response_miss patterns url w :
  matches_any patterns url = false -> handle_response patterns url w = w.
Proof.
  intros Hm. unfold handle_response. rewrite scan_patterns_spec, Hm.
  now destruct (truthy (found_m3u8 w)).
Qed.

Lemma handle_response_first patterns url :
  matches_any patterns url = true ->
  handle_response patterns url unwatched = recorded url.
Proof.
  intros Hm. unfold handle_response. simpl. now rewrite scan_patterns_spec, Hm.
Qed.

Lemma late_responses_found patterns w later :
  truthy (found_m3u8 w) = true -> foldl (late_response patterns) w later = w.
Proof.
  intros Ht. induction later as [|e later IH]; simpl; [reflexivity|].
  destruct e; simpl; try exact IH. now rewrite handle_response_found.
Qed.

Lemma late_responses_miss patterns w later :
  Forall (fun e => is_matching_response patterns e = false) later ->
  foldl (late_response patterns) w later = w.
Proof.
  induction 1 as [|e later He _ IH]; simpl; [reflexivity|].
  destruct e; simpl in *; try exact IH. now rewrite handle_response_miss.
Qed.

Lemma wait_skips_misses patterns pre evs w :
  Forall (fun url => matches_any patterns url = false) pre ->
  done (m3u8_future w) = false ->
  wait_first_completed patterns (map Response pre ++ evs) w =
  wait_first_completed patterns evs w.
Proof.
  intros Hpre Hd. induction Hpre as [|url pre Hu _ IH]; simpl.
  - reflexivity.
  - rewrite (handle_response_miss _ _ _ Hu), Hd. exact IH.
Qed.

Lemma wait_first_match patterns pre url rest :
  Forall (fun v => matches_any patterns v = false) pre ->
  matches_any patterns url = true ->
  wait_first_completed patterns (map Response pre ++ Response url :: rest) unwatched
  = (ManifestSeen, recorded url, rest).
Proof.
  intros Hpre Hm. rewrite wait_skips_misses by (exact Hpre || reflexivity).
  simpl. now rewrite (handle_response_first _ _ Hm).
Qed.

(** C8: the found-manifest slot is write-once.  The first response whose
    URL matches one of the configured patterns (tried in order, ignoring
    case) is recorded and ends the wait; whatever is observed afterwards,
    matching or not, leaves the recorded URL as it is.  Response URLs are
    never empty. *)
Theorem found_m3u8_write_once patterns pre url rest :
  Forall (fun v => matches_any patterns v = false) pre ->
  matches_any patterns url = true ->
  url <> "" ->
  wait_first_completed patterns (map Response pre ++ Response url :: rest) unwatched
    = (ManifestSeen, recorded url, rest)
  /\ watch_page patterns (map Response pre ++ Response url :: rest) = recorded url
  /\ (forall w v, found_m3u8 w = Some url -> handle_response patterns v w = w)
  /\ (forall later, foldl (late_response patterns) (recorded url) later = recorded url)
  /\ (forall v, handle_response patterns v unwatched
                = if existsb (fun pattern => re_search true pattern v) patterns
                  then recorded v else unwatched)
  /\ (forall v v', lower v = lower v' ->
        handle_response patterns v unwatched = unwatched <->
        handle_response patterns v' unwatched = unwatched)
  /\ (forall v v' pattern, lower v = lower v' ->
        re_search true pattern v = re_search true pattern v').
Proof.
  intros Hpre Hm Hne.
  assert (Ht : truthy (found_m3u8 (recorded url)) = true) by now apply truthy_nonempty.
  split; [now apply wait_first_match|].
  split.
  { unfold watch_page. rewrite (wait_first_match _ _ _ _ Hpre Hm).
    now apply late_responses_found. }
  split.
  { intros w v Hw. apply handle_response_found. rewrite Hw. now apply truthy_nonempty. }
  split; [intros later; now apply late_responses_found|].
  assert (Hfirst : forall v, handle_response patterns v unwatched
                   = if matches_any patterns v then recorded v else unwatched).
  { intros v. unfold handle_response. simpl. now rewrite scan_patterns_spec. }
  split; [exact Hfirst|].
  split; [|intros v v' pattern Hl; now apply re_search_lower].
  intros v v' Hl. rewrite !Hfirst, (matches_any_lower patterns v v' Hl).
  destruct (matches_any patterns v'); split; intros H; try discriminate; reflexivity.
Qed.

Lemma found_m3u8_write_once_witness :
  watch_page (m3u8_patterns default_config)
    (map Response ["https://a.test/embed/app.js"]
     ++ Response "https://cdn.test/stream/PLAYLIST.m3u8"
        :: [Response "https://cdn.test/stream/index.m3u8"; NavigationDone])
  = recorded "https://cdn.test/stream/PLAYLIST.m3u8".
Proof.
  refine (proj1 (proj2 (found_m3u8_write_once (m3u8_patterns default_config)
            ["https://a.test/embed/app.js"]
            "https://cdn.test/stream/PLAYLIST.m3u8"
            [Response "https://cdn.test/stream/index.m3u8"; NavigationDone]
            _ _ _))).
  - repeat constructor.
  - vm_compute. reflexivity.
  - discriminate.
Defined.

(** ** Statistics *)

Lemma consistent_zero : consistent zero_stats.
Proof. split; simpl; [reflexivity | lia]. Qed.

Lemma consistent_success t s : consistent (record_success t s).
Proof. split; simpl; [discriminate | reflexivity]. Qed.

Lemma consistent_failure s : consistent s -> consistent (record_failure s).
Proof. intros [H0 H1]. split; simpl; assumption. Qed.

(** What an attempt's completion does to the extractor: the pool and the
    configuration stay, one [Finished] entry is written, and the statistics
    take at most one record. *)
Lemma finish_attempt_effect env n url x :
  exists s,
    snd (finish_attempt env n url x) = set_stats s (record (Finished n url) x)
    /\ (s = stats x \/ s = record_failure (stats x)
        \/ s = record_success (elapsed (page_behaviour env n)) (stats x)).
Proof.
  unfold finish_attempt, bind, try_except, update_stats, modify, get, ret, raise.
  simpl.
  destruct (new_page_error (page_behaviour env n)); simpl.
  { exists (stats x). split; [now destruct x | now left]. }
  destruct (body_error (page_behaviour env n)); simpl.
  { exists (record_failure (stats x)).
    split; [|right; now left].
    destruct (close_error (page_behaviour env n)); reflexivity. }
  destruct (truthy _); simpl.
  - eexists. split; [reflexivity|]. right; now right.
  - eexists. split; [reflexivity|]. right; now left.
Qed.

Lemma finish_attempt_consistent env n url x :
  consistent (stats x) -> consistent (stats (snd (finish_attempt env n url x))).
Proof.
  intros Hc. destruct (finish_attempt_effect env n url x) as (s & -> & [->|[->| ->]]);
    simpl; auto using consistent_success, consistent_failure.
Qed.

Lemma finish_attempt_failure env n url x r x' :
  finish_attempt env n url x = (Returned r, x') ->
  success r = false ->
  stats x' = record_failure (stats x).
Proof.
  unfold finish_attempt, bind, try_except, update_stats, modify, get, ret, raise.
  simpl.
  destruct (new_page_error (page_behaviour env n)); simpl; [discriminate|].
  destruct (body_error (page_behaviour env n)); simpl.
  { destruct (close_error (page_behaviour env n)); [discriminate|].
    intros [= <- <-] _. reflexivity. }
  destruct (truthy _); simpl; intros [= <- <-]; simpl; [discriminate | reflexivity].
Qed.

Lemma extract_single_finish env url context x :
  extract_single env url context x =
  finish_attempt env (attempts x) url
    (record (Started (attempts x) url context) (set_attempts (S (attempts x)) x)).
Proof. reflexivity. Qed.

(** C7: the statistics invariant.  The average successful duration is the
    cumulative successful duration divided by the successful count when that
    count is positive, and 0 when it is 0.  It holds at construction and
    after [reset_stats], and every attempt's completion preserves it; a
    failed attempt adds one to the failed count and changes nothing else. *)
Theorem stats_consistent env :
  consistent (stats (init default_config))
  /\ (forall x, consistent (stats (snd (reset_stats x))))
  /\ (forall url context x,
        consistent (stats x) ->
        consistent (stats (snd (extract_single env url context x))))
  /\ (forall n url x,
        consistent (stats x) ->
        consistent (stats (snd (finish_attempt env n url x))))
  /\ (forall url context x r x',
        extract_single env url context x = (Returned r, x') ->
        success r = false ->
        failed (stats x') = S (failed (stats x))
        /\ successful (stats x') = successful (stats x)
        /\ total_time (stats x') = total_time (stats x)
        /\ average_time (stats x') = average_time (stats x)).
Proof.
  split; [exact consistent_zero|].
  split; [intros x; exact consistent_zero|].
  split.
  { intros url context x Hc. rewrite extract_single_finish.
    now apply finish_attempt_consistent. }
  split; [intros n url x; apply finish_attempt_consistent|].
  intros url context x r x' Hrun Hfail. rewrite extract_single_finish in Hrun.
  rewrite (finish_attempt_failure _ _ _ _ _ _ Hrun Hfail). simpl. auto.
Qed.

Lemma stats_consistent_witness :
  consistent (stats (snd (extract_single
    {| start_error := None; launch_error := None;
       new_context_error := fun _ => None; stop_again_error := None;
       page_behaviour := fun _ =>
         {| new_page_error := None;
            events := [Response "https://cdn.test/live/index.m3u8"];
            body_error := None; close_error := None;
            elapsed := 500%Q; finish_rank := 0 |} |}
    "https://a.test/embed/1" 0%nat (init default_config)))).
Proof.
  apply (proj1 (proj2 (proj2 (stats_consistent _)))).
  split; simpl; [reflexivity | lia].
Defined.

(** ** One attempt yields one well-formed result, or raises *)

Lemma success_not_failure r : is_success r -> ~ is_failure r.
Proof. intros (Hs & _) (Hf & _). congruence. Qed.

(** What holds once the page was opened and as long as closing the page in
    the handler works: the attempt returns exactly one result, a success
    (flag set, a manifest URL, no error) or a failure (flag clear, no
    manifest URL, an error description), never both and never neither.  An
    exception raised inside the [try] is turned into a failure result
    carrying its text, and a navigation that raises leaves a failure result
    as well. *)
Theorem extract_single_result env embed_url context x :
  let b := page_behaviour env (attempts x) in
  let w := watch_page (m3u8_patterns (config x)) (events b) in
  page_opens b ->
  cleanup_works b ->
  exists r x',
    extract_single env embed_url context x = (Returned r, x')
    /\ embedUrl r = embed_url
    /\ (is_success r \/ is_failure r)
    /\ ~ (is_success r /\ is_failure r)
    /\ (forall e, body_error b = Some e -> is_failure r /\ error r = Some e)
    /\ (body_error b = None -> truthy (found_m3u8 w) = true ->
        is_success r /\ m3u8Url r = found_m3u8 w)
    /\ (body_error b = None -> truthy (found_m3u8 w) = false ->
        is_failure r /\ error r = Some not_found)
    /\ (forall pre msg rest,
          body_error b = None ->
          events b = map Response pre ++ NavigationFailed msg :: rest ->
          Forall (fun v => matches_any (m3u8_patterns (config x)) v = false) pre ->
          Forall (fun e => is_matching_response (m3u8_patterns (config x)) e = false) rest ->
          is_failure r /\ error r = Some not_found).
Proof.
  intros b w Hopen Hclose. unfold page_opens, cleanup_works in *.
  rewrite extract_single_finish.
  unfold finish_attempt, bind, try_except, update_stats, modify, get, ret, raise.
  simpl. fold b. rewrite Hopen. simpl.
  assert (Hnav : forall pre msg rest,
          events b = map Response pre ++ NavigationFailed msg :: rest ->
          Forall (fun v => matches_any (m3u8_patterns (config x)) v = false) pre ->
          Forall (fun e => is_matching_response (m3u8_patterns (config x)) e = false) rest ->
          truthy (found_m3u8 w) = false).
  { intros pre msg rest Hev Hpre Hrest. unfold w, watch_page. rewrite Hev.
    rewrite wait_skips_misses by (exact Hpre || reflexivity). simpl.
    now rewrite late_responses_miss. }
  destruct (body_error b) as [e|] eqn:Hbody; simpl.
  - rewrite Hclose. eexists _, _. split; [reflexivity|]. simpl.
    assert (Hf : is_failure {| embedUrl := embed_url; m3u8Url := None;
                               success := false; time := elapsed b;
                               error := Some e |}).
    { repeat split; simpl; eauto. }
    split; [reflexivity|]. split; [now right|].
    split; [intros [Hs _]; now apply (success_not_failure _ Hs)|].
    split; [intros e' [= <-]; now split|].
    repeat split; intros; discriminate.
  - fold w. destruct (truthy (found_m3u8 w)) eqn:Ht; simpl.
    + assert (Hs : is_success {| embedUrl := embed_url; m3u8Url := found_m3u8 w;
                                 success := true; time := elapsed b;
                                 error := None |}).
      { repeat split; simpl. destruct (found_m3u8 w) as [u|]; [eauto | discriminate]. }
      eexists _, _. split; [reflexivity|]. simpl.
      split; [reflexivity|]. split; [now left|].
      split; [intros [_ Hf]; now apply (success_not_failure _ Hs)|].
      split; [intros; discriminate|].
      split; [intros _ _; now split|].
      split; [intros; discriminate|].
      intros pre msg rest _ Hev Hpre Hrest.
      specialize (Hnav pre msg rest Hev Hpre Hrest). congruence.
    + assert (Hf : is_failure {| embedUrl := embed_url; m3u8Url := None;
                                 success := false; time := elapsed b;
                                 error := Some not_found |}).
      { repeat split; simpl; eauto. }
      eexists _, _. split; [reflexivity|]. simpl.
      split; [reflexivity|]. split; [now right|].
      split; [intros [Hs _]; now apply (success_not_failure _ Hs)|].
      split; [intros; discriminate|].
      split; [intros; discriminate|].
      split; [intros _ _; now split|].
      intros; now split.
Qed.

Lemma extract_single_result_witness :
  exists r x',
    extract_single (browser_with (fun _ => broken_page)) "https://b.test/embed/2" 0%nat
      (init default_config) = (Returned r, x')
    /\ is_failure r.
Proof.
  destruct (extract_single_result (browser_with (fun _ => broken_page))
              "https://b.test/embed/2" 0%nat (init default_config))
    as (r & x' & Hrun & _ & _ & _ & _ & _ & Hf & _).
  - reflexivity.
  - reflexivity.
  - exists r, x'. split; [exact Hrun|]. apply Hf; reflexivity.
Defined.

(** C2 fails on two paths of [extract_single].  [context.new_page()] is
    awaited before the [try]: when it raises, the error leaves the attempt
    and nothing is recorded.  [page.close()] in the handler is awaited
    outside any [try]: when the body has raised and closing the page raises
    as well, the second error leaves the attempt, after the failure was
    counted.  In both cases the caller gets an exception and no result.
    These are the only two: an attempt returns a result exactly when the
    page opens and either the body raises nothing or the handler can close
    the page. *)
Theorem extract_single_propagates env embed_url context x :
  let b := page_behaviour env (attempts x) in
  (forall e, new_page_error b = Some e ->
     exists x',
       extract_single env embed_url context x = (Raised (PlaywrightError e), x')
       /\ stats x' = stats x)
  /\ (forall e e',
        new_page_error b = None -> body_error b = Some e -> close_error b = Some e' ->
        exists x',
          extract_single env embed_url context x = (Raised (PlaywrightError e'), x')
          /\ failed (stats x') = S (failed (stats x))
          /\ successful (stats x') = successful (stats x))
  /\ ((exists r x', extract_single env embed_url context x = (Returned r, x'))
      <-> page_opens b /\ (body_error b = None \/ cleanup_works b)).
Proof.
  intros b. unfold page_opens, cleanup_works.
  rewrite extract_single_finish.
  unfold finish_attempt, bind, try_except, update_stats, modify, get, ret, raise.
  simpl. fold b.
  destruct (new_page_error b) as [e0|] eqn:Hopen; simpl.
  { split; [intros e [= <-]; eexists; split; reflexivity|].
    split; [intros; discriminate|].
    split; [intros (r & x' & [=]) | intros [[=] _]]. }
  split; [intros; discriminate|].
  destruct (body_error b) as [e1|] eqn:Hbody; simpl.
  - destruct (close_error b) as [e2|] eqn:Hclose; simpl.
    + split; [intros e e' _ _ [= <-]; eexists; repeat split; reflexivity|].
      split; [intros (r & x' & [=]) | intros [_ [[=]|[=]]]].
    + split; [intros; discriminate|].
      split; [intros _; split; [reflexivity | now right] | intros _; eauto].
  - split; [intros; discriminate|].
    split; [intros _; split; [reflexivity | now left]|intros _].
    destruct (truthy _); simpl; eauto.
Qed.

Lemma extract_single_propagates_witness :
  (exists x',
     extract_single (browser_with (fun _ => closed_context_page))
       "https://a.test/embed/1" 0%nat (init default_config)
     = (Raised (PlaywrightError "Target page, context or browser has been closed"), x')
     /\ stats x' = stats (init default_config))
  /\ (exists x',
        extract_single (browser_with (fun _ => vanished_page))
          "https://a.test/embed/1" 0%nat (init default_config)
        = (Raised (PlaywrightError "Target page, context or browser has been closed"), x')
        /\ failed (stats x') = 1%nat
        /\ successful (stats x') = 0%nat).
Proof.
  split.
  - apply (proj1 (extract_single_propagates (browser_with (fun _ => closed_context_page))
                    "https://a.test/embed/1" 0%nat (init default_config))).
    reflexivity.
  - apply (proj1 (proj2 (extract_single_propagates (browser_with (fun _ => vanished_page))
                           "https://a.test/embed/1" 0%nat (init default_config)))
             "Page crashed"); reflexivity.
Defined.

(** One attempt that cannot open its page takes the whole call with it:
    [extract] raises, and the results of the other attempts are lost. *)
Example unopened_page_aborts_extract :
  fst (extract (browser_with second_unopened) three_embeds (init small_config))
  = Raised (PlaywrightError "Target page, context or browser has been closed").
Proof. vm_compute. reflexivity. Qed.

(** ** Navigation ends the wait *)

Lemma wait_navigation patterns pre nav rest :
  Forall (fun v => matches_any patterns v = false) pre ->
  nav = NavigationDone \/ (exists msg, nav = NavigationFailed msg) ->
  wait_first_completed patterns (map Response pre ++ nav :: rest) unwatched
  = (NavigationEnded, unwatched, rest).
Proof.
  intros Hpre Hnav. rewrite wait_skips_misses by (exact Hpre || reflexivity).
  destruct Hnav as [->|[msg ->]]; reflexivity.
Qed.

(** C4, as the code has it: once [page.goto] completes (or raises) with no
    manifest seen so far, the wait is over at once, whatever is left of the
    timeout; the attempt then reports "M3U8 URL not found within timeout"
    unless a matching response still arrives while the page is closed. *)
Theorem navigation_ends_wait env embed_url context x pre nav rest :
  let b := page_behaviour env (attempts x) in
  let patterns := m3u8_patterns (config x) in
  page_opens b ->
  body_error b = None ->
  events b = map Response pre ++ nav :: rest ->
  nav = NavigationDone \/ (exists msg, nav = NavigationFailed msg) ->
  Forall (fun v => matches_any patterns v = false) pre ->
  wait_first_completed patterns (events b) unwatched = (NavigationEnded, unwatched, rest)
  /\ (Forall (fun e => is_matching_response patterns e = false) rest ->
      fst (extract_single env embed_url context x)
      = Returned {| embedUrl := embed_url; m3u8Url := None; success := false;
                    time := elapsed b; error := Some not_found |}).
Proof.
  intros b patterns Hopen Hbody Hev Hnav Hpre. unfold page_opens in Hopen.
  assert (Hwait : wait_first_completed patterns (events b) unwatched
                  = (NavigationEnded, unwatched, rest)).
  { rewrite Hev. now apply wait_navigation. }
  split; [exact Hwait|].
  intros Hrest. rewrite extract_single_finish.
  unfold finish_attempt, bind, try_except, update_stats, modify, get, ret, raise.
  simpl. fold b. rewrite Hopen, Hbody. simpl. fold patterns.
  unfold watch_page. rewrite Hwait.
  rewrite late_responses_miss by exact Hrest. reflexivity.
Qed.

Lemma navigation_ends_wait_witness :
  fst (extract_single (browser_with (fun _ => idle_page)) "https://a.test/embed/1" 0%nat
         (init default_config))
  = Returned {| embedUrl := "https://a.test/embed/1"; m3u8Url := None;
                success := false; time := 1500%Q; error := Some not_found |}.
Proof.
  refine (proj2 (navigation_ends_wait (browser_with (fun _ => idle_page))
            "https://a.test/embed/1" 0%nat (init default_config)
            ["https://a.test/embed/app.js"] NavigationDone [TimeoutElapsed]
            _ _ _ _ _) _).
  - reflexivity.
  - reflexivity.
  - reflexivity.
  - now left.
  - repeat constructor.
  - repeat constructor.
Defined.

(** C4, as claimed, fails: were failure concluded on the timer only, every
    attempt that reports "M3U8 URL not found within timeout" would have seen
    its wait ended by the timer; on [idle_page] the wait is ended by the
    navigation, the timer still pending, and the attempt reports just that. *)
Lemma navigation_alone_ends_wait :
  ~ (forall env embed_url context x r x',
       extract_single env embed_url context x = (Returned r, x') ->
       error r = Some not_found ->
       fst (fst (wait_first_completed (m3u8_patterns (config x))
                   (events (page_behaviour env (attempts x))) unwatched))
       = TimerFired).
Proof.
  intros H.
  specialize (H (browser_with (fun _ => idle_page)) "https://a.test/embed/1" 0%nat
                (init default_config)
                (not_streamed "https://a.test/embed/1" 1500%Q)
                (snd (extract_single (browser_with (fun _ => idle_page))
                        "https://a.test/embed/1" 0%nat (init default_config)))
                eq_refl eq_refl).
  discriminate H.
Qed.

(** ** Teardown *)

(** C9 fails on a pool that was never initialized: [close] gets as far as
    [self.playwright.stop()], and the attribute does not exist. *)
Theorem close_uninitialized_raises env cfg :
  close env (init cfg)
  = (Raised (AttributeError "'M3U8Extractor' object has no attribute 'playwright'"),
     init cfg).
Proof. reflexivity. Qed.

Lemma close_contexts_run cs : forall x,
  exists x',
    close_contexts cs x = (Returned tt, x')
    /\ same_pool x x'
    /\ stats x' = stats x
    /\ journal x' = journal x ++ map ContextClosed cs.
Proof.
  induction cs as [|c cs IH]; intros x.
  - exists x. simpl. rewrite app_nil_r. repeat split; auto.
  - cbn [close_contexts]. unfold bind at 1, modify.
    destruct (IH (record (ContextClosed c) x)) as (x' & H1 & H2 & H3 & H4).
    exists x'. split; [exact H1|]. split; [exact H2|]. split; [exact H3|].
    rewrite H4. simpl. now rewrite <- app_assoc.
Qed.

(** On a pool with a running driver, [close] closes every context, then the
    browser, then stops the driver, and leaves the pool empty. *)
Lemma close_initialized env x :
  playwright x = Some true -> browser x = Some tt ->
  exists x',
    close env x = (Returned tt, x')
    /\ contexts x' = [] /\ browser x' = None /\ playwright x' = Some false
    /\ journal x' = journal x ++ map ContextClosed (contexts x)
                      ++ [BrowserClosed; DriverStopped].
Proof.
  intros Hpw Hb. unfold close. unfold bind at 1, get. unfold bind at 1.
  destruct (close_contexts_run (contexts x) x) as (x1 & Hrun & _ & _ & Hj).
  rewrite Hrun, Hb, Hpw. unfold bind, modify, ret. simpl.
  eexists. split; [reflexivity|]. simpl. repeat split.
  rewrite Hj, <- !app_assoc. reflexivity.
Qed.

(** When the driver cannot start, [extract_m3u8] reports the failure of its
    own cleanup instead. *)
Lemma extract_m3u8_masks_startup env embed_urls cfg e :
  start_error env = Some e ->
  fst (extract_m3u8 env embed_urls cfg)
  = Raised (AttributeError "'M3U8Extractor' object has no attribute 'playwright'").
Proof.
  intros He. unfold extract_m3u8, try_except, extract, extract_batch, bind, get.
  simpl. unfold initialize. rewrite He. reflexivity.
Qed.

(** ** Merging the retry results *)

Lemma replace_at_alter rr (l : list result) k :
  replace_at rr l k = alter (fun r => supersede r rr) k l.
Proof.
  unfold replace_at. destruct (l !! k) as [r|] eqn:Hk.
  - unfold supersede.
    destruct (String.eqb (embedUrl r) (embedUrl rr) && success rr) eqn:Hc.
    + apply list_eq. intros i. destruct (decide (i = k)) as [->|Hne].
      * rewrite list_lookup_insert_eq by (eapply lookup_lt_Some; eauto).
        rewrite list_lookup_alter_eq, Hk. simpl. now rewrite Hc.
      * rewrite list_lookup_insert_ne by congruence.
        now rewrite list_lookup_alter_ne by congruence.
    + apply list_eq. intros i. destruct (decide (i = k)) as [->|Hne].
      * rewrite list_lookup_alter_eq, Hk. simpl. now rewrite Hc.
      * now rewrite list_lookup_alter_ne by congruence.
  - apply list_eq. intros i. destruct (decide (i = k)) as [->|Hne].
    + rewrite list_lookup_alter_eq, Hk. reflexivity.
    + now rewrite list_lookup_alter_ne by congruence.
Qed.

Lemma foldl_alter_seq {A} (f : A -> A) n : forall k (l : list A),
  (k + n = length l)%nat ->
  foldl (fun l i => alter f i l) l (seq k n) = take k l ++ map f (drop k l).
Proof.
  induction n as [|n IH]; intros k l Hlen; simpl.
  - rewrite take_ge, drop_ge by lia. now rewrite app_nil_r.
  - rewrite IH by (rewrite length_alter; lia).
    destruct (l !! k) as [a|] eqn:Hk.
    2:{ apply lookup_ge_None in Hk. lia. }
    apply list_eq. intros i.
    destruct (decide (i < k)%nat) as [Hlt|Hge].
    + rewrite !lookup_app_l by (rewrite length_take, ?length_alter; lia).
      rewrite !lookup_take_lt by lia. now rewrite list_lookup_alter_ne by lia.
    + destruct (decide (i = k)) as [->|Hne].
      * rewrite lookup_app_l by (rewrite length_take, ?length_alter; lia).
        rewrite lookup_take_lt by lia. rewrite list_lookup_alter_eq, Hk. simpl.
        rewrite lookup_app_r by (rewrite length_take; lia).
        rewrite length_take, list_lookup_fmap, lookup_drop.
        replace (k + (k - k `min` length l))%nat with k by lia. now rewrite Hk.
      * rewrite !lookup_app_r by (rewrite length_take, ?length_alter; lia).
        rewrite !length_take, length_alter, !list_lookup_fmap, !lookup_drop.
        rewrite list_lookup_alter_ne by lia.
        f_equal. f_equal. lia.
Qed.

Lemma foldl_pointwise {A B} (f g : A -> B -> A) (l : list B) : forall a,
  (forall a b, f a b = g a b) -> foldl f a l = foldl g a l.
Proof.
  induction l as [|b l IH]; intros a Hfg; simpl; [reflexivity|].
  rewrite Hfg. now apply IH.
Qed.

Lemma merge_one_map results rr :
  merge_one results rr = map (fun r => supersede r rr) results.
Proof.
  unfold merge_one.
  rewrite (foldl_pointwise _ (fun l i => alter (fun r => supersede r rr) i l))
    by (intros; apply replace_at_alter).
  now rewrite foldl_alter_seq by lia.
Qed.

Lemma merge_map retry_results : forall results,
  merge retry_results results = map (superseded_by retry_results) results.
Proof.
  unfold merge, superseded_by.
  induction retry_results as [|rr rrs IH]; intros results; simpl.
  - now rewrite map_id.
  - rewrite merge_one_map, IH, map_map. reflexivity.
Qed.

Lemma supersede_url r rr : embedUrl (supersede r rr) = embedUrl r.
Proof.
  unfold supersede.
  destruct (String.eqb_spec (embedUrl r) (embedUrl rr)); simpl; [|reflexivity].
  destruct (success rr); congruence.
Qed.

Lemma superseded_url rrs : forall r, embedUrl (superseded_by rrs r) = embedUrl r.
Proof.
  unfold superseded_by. induction rrs as [|rr rrs IH]; intros r; simpl.
  - reflexivity.
  - now rewrite IH, supersede_url.
Qed.

Lemma superseded_cases rrs : forall r,
  superseded_by rrs r = r \/
  (superseded_by rrs r ∈ rrs /\ success (superseded_by rrs r) = true).
Proof.
  unfold superseded_by. induction rrs as [|rr rrs IH]; intros r; simpl.
  - now left.
  - destruct (IH (supersede r rr)) as [Heq|[Hin Hs]].
    + rewrite Heq. unfold supersede.
      destruct (String.eqb (embedUrl r) (embedUrl rr)); simpl; [|now left].
      destruct (success rr) eqn:Hrr; [|now left].
      right. split; [apply elem_of_cons; now left | exact Hrr].
    + right. split; [apply elem_of_cons; now right | exact Hs].
Qed.

Lemma superseded_hit rrs : forall r rr,
  rr ∈ rrs -> embedUrl rr = embedUrl r -> success rr = true ->
  superseded_by rrs r ∈ rrs /\ success (superseded_by rrs r) = true.
Proof.
  induction rrs as [|rr0 rrs IH]; intros r rr Hin Hurl Hs.
  - now apply elem_of_nil in Hin.
  - change (superseded_by (rr0 :: rrs) r) with (superseded_by rrs (supersede r rr0)).
    apply elem_of_cons in Hin as [<-|Hin].
    + unfold supersede. rewrite Hurl, String.eqb_refl, Hs. simpl.
      destruct (superseded_cases rrs rr) as [->|[Hin' Hs']].
      * split; [apply elem_of_cons; now left | exact Hs].
      * split; [apply elem_of_cons; now right | exact Hs'].
    + destruct (IH (supersede r rr0) rr Hin) as [Hin' Hs'].
      * now rewrite supersede_url.
      * exact Hs.
      * split; [apply elem_of_cons; now right | exact Hs'].
Qed.

Lemma superseded_miss rrs : forall r,
  (forall rr, rr ∈ rrs -> embedUrl rr = embedUrl r -> success rr = false) ->
  superseded_by rrs r = r.
Proof.
  unfold superseded_by. induction rrs as [|rr rrs IH]; intros r Hall; simpl.
  - reflexivity.
  - assert (Hsame : supersede r rr = r).
    { unfold supersede.
      destruct (String.eqb_spec (embedUrl r) (embedUrl rr)) as [Heq|]; simpl; [|reflexivity].
      rewrite (Hall rr); [reflexivity | apply elem_of_cons; now left | now symmetry]. }
    rewrite Hsame. apply IH. intros rr' Hin. apply Hall. apply elem_of_cons. now right.
Qed.

Lemma merge_length retry_results results :
  length (merge retry_results results) = length results.
Proof. now rewrite merge_map, length_map. Qed.

(** C10: a successful retry for a URL replaces every entry of the result
    list with that URL, those whose first attempt had succeeded included. *)
Theorem merge_replaces_every_match retry_results results rr :
  rr ∈ retry_results ->
  success rr = true ->
  forall i r,
    results !! i = Some r ->
    embedUrl r = embedUrl rr ->
    exists r',
      merge retry_results results !! i = Some r'
      /\ r' ∈ retry_results
      /\ success r' = true
      /\ embedUrl r' = embedUrl rr
      /\ r' = superseded_by retry_results r.
Proof.
  intros Hin Hs i r Hi Hurl. exists (superseded_by retry_results r).
  rewrite merge_map, list_lookup_fmap, Hi. simpl.
  destruct (superseded_hit retry_results r rr Hin (eq_sym Hurl) Hs) as [Hin' Hs'].
  repeat split; auto. now rewrite superseded_url.
Qed.

Lemma merge_replaces_every_match_witness :
  exists r',
    merge [streamed "https://a.test/embed/1" 800%Q]
      [streamed "https://a.test/embed/1" 500%Q;
       not_streamed "https://a.test/embed/1" 1500%Q] !! 0%nat = Some r'
    /\ r' = streamed "https://a.test/embed/1" 800%Q.
Proof.
  destruct (merge_replaces_every_match
              [streamed "https://a.test/embed/1" 800%Q]
              [streamed "https://a.test/embed/1" 500%Q;
               not_streamed "https://a.test/embed/1" 1500%Q]
              (streamed "https://a.test/embed/1" 800%Q))
    with (i := 0%nat) (r := streamed "https://a.test/embed/1" 500%Q)
    as (r' & Hr' & _ & _ & _ & Heq).
  - constructor.
  - reflexivity.
  - reflexivity.
  - reflexivity.
  - exists r'. split; [exact Hr' | exact Heq].
Defined.

(** The same through [extract]: the entry of the first attempt, a success
    after 500 ms, ends up as the retry's result. *)
Example extract_replaces_earlier_success :
  fst (extract (browser_with twice_pages) twice_embeds (init small_config))
  = Returned [streamed "https://a.test/embed/1" 800%Q;
              streamed "https://a.test/embed/1" 800%Q].
Proof. vm_compute. reflexivity. Qed.

(** ** Journals *)

Lemma in_flight_app j1 j2 : in_flight (j1 ++ j2) = in_flight j1 + in_flight j2.
Proof.
  unfold in_flight. induction j1 as [|e j1 IH]; simpl; [reflexivity|].
  rewrite IH. lia.
Qed.

Lemma in_flight_started j :
  Forall is_started j -> in_flight j = Z.of_nat (length j).
Proof.
  induction 1 as [|e j He _ IH]; [reflexivity|].
  change (in_flight (e :: j)) with (weight e + in_flight j). rewrite IH.
  destruct e; try contradiction. simpl length. simpl weight. lia.
Qed.

Lemma in_flight_finished j :
  Forall is_finished j -> in_flight j = - Z.of_nat (length j).
Proof.
  induction 1 as [|e j He _ IH]; [reflexivity|].
  change (in_flight (e :: j)) with (weight e + in_flight j). rewrite IH.
  destruct e; try contradiction. simpl length. simpl weight. lia.
Qed.

Lemma prefix_app_split {A} (p j1 j2 : list A) :
  p `prefix_of` j1 ++ j2 ->
  p `prefix_of` j1 \/ exists p', p = j1 ++ p' /\ p' `prefix_of` j2.
Proof.
  revert p. induction j1 as [|e j1 IH]; intros p Hp; simpl in *.
  - right. exists p. split; [reflexivity | exact Hp].
  - destruct p as [|e' p]; [left; apply prefix_nil|].
    pose proof (prefix_cons_inv_1 _ _ _ _ Hp) as ->.
    apply prefix_cons_inv_2 in Hp.
    destruct (IH p Hp) as [Hl|(p' & -> & Hp')].
    + left. now apply prefix_cons.
    + right. exists p'. split; [reflexivity | exact Hp'].
Qed.

Lemma bounded_nil c : 0 <= c -> bounded c [].
Proof. intros Hc p Hp. apply prefix_nil_inv in Hp as ->. exact Hc. Qed.

Lemma bounded_app c j1 j2 :
  bounded c j1 -> in_flight j1 = 0 -> bounded c j2 -> bounded c (j1 ++ j2).
Proof.
  intros H1 H0 H2 p Hp. destruct (prefix_app_split _ _ _ Hp) as [Hl|(p' & -> & Hp')].
  - now apply H1.
  - rewrite in_flight_app, H0. now apply H2.
Qed.

Lemma bounded_single c e : 0 <= c -> weight e = 0 -> bounded c [e].
Proof.
  intros Hc He p Hp. destruct p as [|e' p]; [exact Hc|].
  pose proof (prefix_cons_inv_1 _ _ _ _ Hp) as ->.
  apply prefix_cons_inv_2, prefix_nil_inv in Hp as ->.
  unfold in_flight. simpl. lia.
Qed.

Lemma Forall_prefix {A} (P : A -> Prop) (p l : list A) :
  p `prefix_of` l -> Forall P l -> Forall P p.
Proof. intros [k ->] H. now apply Forall_app in H as [H _]. Qed.

Lemma bounded_block c ss fs :
  Forall is_started ss -> Forall is_finished fs ->
  Z.of_nat (length ss) <= c ->
  bounded c (ss ++ fs).
Proof.
  intros Hss Hfs Hc p Hp.
  destruct (prefix_app_split _ _ _ Hp) as [Hl|(p' & -> & Hp')].
  - rewrite in_flight_started by (eapply Forall_prefix; eauto).
    apply prefix_length in Hl. lia.
  - rewrite in_flight_app, in_flight_started by exact Hss.
    rewrite in_flight_finished by (eapply Forall_prefix; eauto). lia.
Qed.

Lemma dispatched_app j1 j2 : dispatched (j1 ++ j2) = dispatched j1 ++ dispatched j2.
Proof. apply omap_app. Qed.

Lemma passes_app j1 j2 : passes (j1 ++ j2) = passes j1 ++ passes j2.
Proof. apply omap_app. Qed.

Lemma started_ids_app j1 j2 : started_ids (j1 ++ j2) = started_ids j1 ++ started_ids j2.
Proof. apply omap_app. Qed.

Lemma finished_ids_app j1 j2 : finished_ids (j1 ++ j2) = finished_ids j1 ++ finished_ids j2.
Proof. apply omap_app. Qed.

Lemma finished_quiet fs :
  Forall is_finished fs -> dispatched fs = [] /\ passes fs = [] /\ started_ids fs = [].
Proof.
  induction 1 as [|e fs He _ (IH1 & IH2 & IH3)]; [now repeat split|].
  destruct e; try contradiction. now repeat split.
Qed.

Lemma started_quiet ss :
  Forall is_started ss -> passes ss = [] /\ finished_ids ss = [].
Proof.
  induction 1 as [|e ss He _ (IH1 & IH2)]; [now repeat split|].
  destruct e; try contradiction. now repeat split.
Qed.

Lemma finished_ids_length fs :
  Forall is_finished fs -> length (finished_ids fs) = length fs.
Proof.
  induction 1 as [|e fs He _ IH]; [reflexivity|].
  destruct e; try contradiction. simpl. now rewrite <- IH.
Qed.

Lemma started_ids_length ss :
  Forall is_started ss -> length (started_ids ss) = length ss.
Proof.
  induction 1 as [|e ss He _ IH]; [reflexivity|].
  destruct e; try contradiction. simpl. now rewrite <- IH.
Qed.

Lemma dispatched_length ss :
  Forall is_started ss -> length (dispatched ss) = length ss.
Proof.
  induction 1 as [|e ss He _ IH]; [reflexivity|].
  destruct e; try contradiction. simpl. now rewrite <- IH.
Qed.

(** ** Running an attempt *)

Section Runs.

Variable env : environment.

Lemma same_pool_refl x : same_pool x x.
Proof. now repeat split. Qed.

Lemma same_pool_trans x y z : same_pool x y -> same_pool y z -> same_pool x z.
Proof.
  intros (H1 & H2 & H3 & H4) (H1' & H2' & H3' & H4').
  repeat split; congruence.
Qed.

Lemma finish_attempt_outcome n url x :
  fst (finish_attempt env n url x) = attempt_outcome env (config x) n url.
Proof.
  unfold attempt_outcome, finish_attempt, bind, try_except, update_stats, modify,
    get, ret, raise.
  simpl.
  destruct (new_page_error (page_behaviour env n)); simpl; [reflexivity|].
  destruct (body_error (page_behaviour env n)); simpl.
  { destruct (close_error (page_behaviour env n)); reflexivity. }
  destruct (truthy _); reflexivity.
Qed.

Lemma attempt_outcome_url cfg n url r :
  attempt_outcome env cfg n url = Returned r -> embedUrl r = url.
Proof.
  unfold attempt_outcome, finish_attempt, bind, try_except, update_stats, modify,
    get, ret, raise.
  simpl.
  destruct (new_page_error (page_behaviour env n)); simpl; [discriminate|].
  destruct (body_error (page_behaviour env n)); simpl.
  { destruct (close_error (page_behaviour env n)); [discriminate|].
    now intros [= <-]. }
  destruct (truthy _); now intros [= <-].
Qed.

Lemma attempt_outcome_total cfg n url :
  page_opens (page_behaviour env n) ->
  cleanup_works (page_behaviour env n) ->
  exists r, attempt_outcome env cfg n url = Returned r.
Proof.
  unfold page_opens, cleanup_works. intros Hopen Hclose.
  unfold attempt_outcome, finish_attempt, bind, try_except, update_stats, modify,
    get, ret, raise.
  simpl. rewrite Hopen. simpl.
  destruct (body_error (page_behaviour env n)); simpl.
  { rewrite Hclose. eauto. }
  destruct (truthy _); eauto.
Qed.

Lemma finish_attempt_run n url x :
  exists x',
    finish_attempt env n url x = (attempt_outcome env (config x) n url, x')
    /\ same_pool x x'
    /\ attempts x' = attempts x
    /\ journal x' = journal x ++ [Finished n url]
    /\ (consistent (stats x) -> consistent (stats x')).
Proof.
  exists (snd (finish_attempt env n url x)).
  split.
  { rewrite <- finish_attempt_outcome. now destruct (finish_attempt env n url x). }
  pose proof (finish_attempt_consistent env n url x) as Hc.
  destruct (finish_attempt_effect env n url x) as (s & Hs & _).
  rewrite Hs in *.
  split; [now repeat split|]. split; [reflexivity|]. split; [reflexivity|].
  exact Hc.
Qed.

Lemma begin_attempt_run url context x :
  begin_attempt url context x
  = (Returned (attempts x),
     record (Started (attempts x) url context) (set_attempts (S (attempts x)) x)).
Proof. reflexivity. Qed.

(** ** Running a group *)

Lemma start_all_run tasks : forall x,
  exists x',
    start_all tasks x
    = (Returned (imap (fun j t => ((attempts x + j)%nat, fst t)) tasks), x')
    /\ same_pool x x'
    /\ stats x' = stats x
    /\ attempts x' = (attempts x + length tasks)%nat
    /\ journal x' = journal x ++ started_entries (attempts x) tasks.
Proof.
  induction tasks as [|[url context] tasks IH]; intros x.
  - exists x. unfold started_entries. simpl. rewrite app_nil_r.
    repeat split; auto; lia.
  - cbn [start_all]. unfold bind at 1. rewrite begin_attempt_run.
    set (x1 := record _ _).
    destruct (IH x1) as (x' & Hrun & Hpool & Hstats & Hatt & Hj).
    exists x'. unfold bind at 1. rewrite Hrun. unfold ret.
    split.
    { f_equal. f_equal. rewrite imap_cons. simpl. f_equal; [f_equal; lia|].
      apply imap_ext. intros j t _. simpl. f_equal. lia. }
    split; [eapply same_pool_trans; [|exact Hpool]; now repeat split|].
    split; [rewrite Hstats; reflexivity|].
    split; [rewrite Hatt; simpl; lia|].
    rewrite Hj. simpl. rewrite <- app_assoc. f_equal.
    unfold started_entries. rewrite imap_cons. simpl. f_equal; [f_equal; lia|].
    apply imap_ext. intros j t _. simpl. f_equal. lia.
Qed.


(** Completions fill the slots whatever their order. *)
Lemma fill_length {A B} (f : B -> option A) (order : list (nat * B)) :
  forall slots : list (option A),
  length (foldl (fun s t => <[fst t := f (snd t)]> s) slots order) = length slots.
Proof.
  induction order as [|t order IH]; intros slots; simpl; [reflexivity|].
  now rewrite IH, length_insert.
Qed.

Lemma fill_other {A B} (f : B -> option A) (order : list (nat * B)) i :
  forall slots : list (option A),
  i ∉ order.*1 ->
  foldl (fun s t => <[fst t := f (snd t)]> s) slots order !! i = slots !! i.
Proof.
  induction order as [|t order IH]; intros slots Hi; simpl; [reflexivity|].
  rewrite fmap_cons in Hi. apply not_elem_of_cons in Hi as [Hne Hi].
  rewrite IH by exact Hi. now rewrite list_lookup_insert_ne by congruence.
Qed.

Lemma fill_at {A B} (f : B -> option A) (order : list (nat * B)) i b :
  forall slots : list (option A),
  NoDup order.*1 -> (i, b) ∈ order -> (i < length slots)%nat ->
  foldl (fun s t => <[fst t := f (snd t)]> s) slots order !! i = Some (f b).
Proof.
  induction order as [|t order IH]; intros slots Hnd Hin Hlt; simpl.
  - now apply elem_of_nil in Hin.
  - rewrite fmap_cons in Hnd. apply NoDup_cons in Hnd as [Hfresh Hnd].
    apply elem_of_cons in Hin as [<-|Hin].
    + simpl in *. rewrite fill_other by exact Hfresh.
      now rewrite list_lookup_insert_eq.
    + apply IH; [exact Hnd | exact Hin | now rewrite length_insert].
Qed.

Lemma fill_slots {A B} (f : B -> option A) (order : list (nat * B)) (items : list B)
    (slots : list (option A)) :
  order ≡ₚ imap (fun i t => (i, t)) items ->
  length slots = length items ->
  foldl (fun s t => <[fst t := f (snd t)]> s) slots order = map f items.
Proof.
  intros Hperm Hlen. apply list_eq. intros i.
  rewrite list_lookup_fmap.
  assert (Hkeys : order.*1 ≡ₚ seq 0 (length items)).
  { rewrite Hperm, fmap_imap. rewrite (imap_ext _ (fun i _ => i)) by reflexivity.
    now rewrite imap_seq_0, list_fmap_id. }
  destruct (items !! i) as [b|] eqn:Hi; simpl.
  - apply fill_at.
    + rewrite Hkeys. apply NoDup_seq.
    + rewrite Hperm. apply list_elem_of_lookup. exists i.
      now rewrite list_lookup_imap, Hi.
    + rewrite Hlen. eapply lookup_lt_Some; eauto.
  - apply lookup_ge_None. rewrite fill_length, Hlen. now apply lookup_ge_None.
Qed.

Lemma returned_all {A} (os : list (outcome A)) :
  Forall (fun o => exists a, o = Returned a) os ->
  Returned <$> omap id (returned <$> os) = os.
Proof.
  induction 1 as [|o os [a ->] _ IH]; simpl; [reflexivity|].
  f_equal. exact IH.
Qed.

Lemma finished_entries order :
  Forall is_finished (map finished_entry order)
  /\ finished_ids (map finished_entry order) = map (fun t => fst (snd t)) order.
Proof.
  induction order as [|t order [IH1 IH2]]; simpl; [now split|].
  split; [constructor; [exact I | exact IH1]|]. now rewrite <- IH2.
Qed.

Lemma complete_all_run order : forall slots x o x',
  complete_all env order slots x = (o, x') ->
  same_pool x x'
  /\ attempts x' = attempts x
  /\ (consistent (stats x) -> consistent (stats x'))
  /\ exists finished,
       finished `prefix_of` order
       /\ journal x' = journal x ++ map finished_entry finished
       /\ forall s, o = Returned s ->
            finished = order
            /\ Forall (fun t => exists r,
                  attempt_outcome env (config x) (fst (snd t)) (snd (snd t)) = Returned r)
                order
            /\ s = foldl (fun s t =>
                     <[fst t := returned (attempt_outcome env (config x)
                                           (fst (snd t)) (snd (snd t)))]> s)
                   slots order.
Proof.
  induction order as [|[idx [n url]] order IH]; intros slots x o x' Hrun.
  - injection Hrun as <- <-.
    split; [apply same_pool_refl|]. split; [reflexivity|]. split; [auto|].
    exists []. split; [reflexivity|]. split; [now rewrite app_nil_r|].
    intros s [= <-]. now repeat split.
  - cbn [complete_all] in Hrun. unfold bind at 1 in Hrun.
    destruct (finish_attempt_run n url x) as (x1 & Hfin & Hpool & Hatt & Hj & Hc).
    rewrite Hfin in Hrun.
    destruct (attempt_outcome env (config x) n url) as [r|e] eqn:Hout.
    + destruct (IH _ _ _ _ Hrun) as (Hpool' & Hatt' & Hc' & finished & Hpre & Hj' & Hret).
      assert (Hcfg : config x1 = config x) by apply Hpool.
      split; [eapply same_pool_trans; eauto|].
      split; [congruence|]. split; [auto|].
      exists ((idx, (n, url)) :: finished).
      split; [now apply prefix_cons|].
      split; [rewrite Hj', Hj, <- app_assoc; reflexivity|].
      intros s Hs. destruct (Hret s Hs) as (-> & Hall & ->).
      rewrite Hcfg in *.
      split; [reflexivity|]. split; [constructor; simpl; eauto|].
      simpl. now rewrite Hout.
    + injection Hrun as <- <-.
      split; [exact Hpool|]. split; [exact Hatt|]. split; [exact Hc|].
      exists [(idx, (n, url))].
      split; [apply prefix_cons, prefix_nil|].
      split; [exact Hj|]. intros s; discriminate.
Qed.

Lemma complete_all_total order : forall slots x,
  Forall (fun t => exists r,
    attempt_outcome env (config x) (fst (snd t)) (snd (snd t)) = Returned r) order ->
  exists s x', complete_all env order slots x = (Returned s, x').
Proof.
  induction order as [|[idx [n url]] order IH]; intros slots x Hall.
  - eexists _, _. reflexivity.
  - apply Forall_cons in Hall as [[r Hr] Hall]. simpl in Hr.
    cbn [complete_all]. unfold bind at 1.
    destruct (finish_attempt_run n url x) as (x1 & Hfin & Hpool & _).
    rewrite Hfin, Hr. apply IH.
    replace (config x1) with (config x) by (symmetry; apply Hpool). exact Hall.
Qed.

End Runs.

Section Groups.

Variable env : environment.

Lemma started_entries_cons n0 t tasks :
  started_entries n0 (t :: tasks)
  = Started n0 (fst t) (snd t) :: started_entries (S n0) tasks.
Proof.
  unfold started_entries. rewrite imap_cons. f_equal; [f_equal; lia|].
  apply imap_ext. intros j t' _. simpl. f_equal. lia.
Qed.

Lemma started_entries_facts tasks : forall n0,
  Forall is_started (started_entries n0 tasks)
  /\ dispatched (started_entries n0 tasks) = map fst tasks
  /\ started_ids (started_entries n0 tasks) = imap (fun j _ => (n0 + j)%nat) tasks
  /\ length (started_entries n0 tasks) = length tasks.
Proof.
  induction tasks as [|t tasks IH]; intros n0.
  - now repeat split.
  - rewrite started_entries_cons. destruct (IH (S n0)) as (H1 & H2 & H3 & H4).
    split; [constructor; [exact I | exact H1]|].
    split; [simpl; now rewrite <- H2|].
    split; [|simpl; now rewrite H4].
    rewrite imap_cons. simpl. change (omap _ (started_entries (S n0) tasks))
      with (started_ids (started_entries (S n0) tasks)).
    rewrite H3. f_equal; [lia|]. apply imap_ext. intros j t' _. simpl. lia.
Qed.

Lemma gather_run tasks x o x' :
  gather env tasks x = (o, x') ->
  same_pool x x'
  /\ attempts x' = (attempts x + length tasks)%nat
  /\ (consistent (stats x) -> consistent (stats x'))
  /\ exists fs,
       journal x' = journal x ++ started_entries (attempts x) tasks ++ fs
       /\ Forall is_finished fs
       /\ (length fs <= length tasks)%nat
       /\ forall rs, o = Returned rs ->
            finished_ids fs ≡ₚ started_ids (started_entries (attempts x) tasks)
            /\ Returned <$> rs
               = imap (fun j t => attempt_outcome env (config x) (attempts x + j) (fst t))
                   tasks.
Proof.
  unfold gather, bind. intros Hrun.
  destruct (start_all_run tasks x) as (x1 & Hstart & Hpool & Hstats & Hatt & Hj).
  rewrite Hstart in Hrun.
  set (started := imap (fun j t => ((attempts x + j)%nat, fst t)) tasks) in *.
  set (order := merge_sort (earlier env) (imap (fun i t => (i, t)) started)) in *.
  assert (Hperm : order ≡ₚ imap (fun i t => (i, t)) started)
    by apply merge_sort_Permutation.
  assert (Hlen : length order = length tasks).
  { rewrite Hperm. unfold started. now rewrite !length_imap. }
  destruct (complete_all env order (replicate (length tasks) None) x1) as [o1 x2] eqn:Hall.
  destruct (complete_all_run env _ _ _ _ _ Hall)
    as (Hpool' & Hatt' & Hc & finished & Hpre & Hj' & Hret).
  assert (Hcfg : config x1 = config x) by apply Hpool.
  assert (Hx' : x' = x2) by (destruct o1; now injection Hrun).
  subst x'.
  split; [eapply same_pool_trans; eauto|].
  split; [congruence|].
  split; [rewrite <- Hstats; exact Hc|].
  exists (map finished_entry finished).
  split; [rewrite Hj', Hj, <- app_assoc; reflexivity|].
  split; [apply finished_entries|].
  split; [rewrite length_map, <- Hlen; now apply prefix_length|].
  intros rs ->. destruct o1 as [s|e]; [|discriminate].
  injection Hrun as <-.
  destruct (Hret s eq_refl) as (-> & Hok & ->). rewrite Hcfg in *.
  split.
  - rewrite (proj2 (finished_entries order)), Hperm, fmap_imap.
    destruct (started_entries_facts tasks (attempts x)) as (_ & _ & -> & _).
    match goal with |- ?l ≡ₚ ?r => assert (Heq : l = r) end.
    { apply list_eq. intros i. unfold started. rewrite !list_lookup_imap.
      now destruct (tasks !! i). }
    now rewrite Heq.
  - rewrite (fill_slots (fun b : nat * string =>
               returned (attempt_outcome env (config x) (fst b) (snd b)))
               order started)
      by (exact Hperm || (unfold started; now rewrite length_replicate, length_imap)).
    set (os := imap (fun j t => attempt_outcome env (config x) (attempts x + j) (fst t))
                 tasks).
    assert (Hos : map (fun b : nat * string =>
                    returned (attempt_outcome env (config x) (fst b) (snd b))) started
                  = returned <$> os).
    { apply list_eq. intros i. unfold os, started.
      rewrite !list_lookup_fmap, !list_lookup_imap. now destruct (tasks !! i). }
    rewrite Hos. apply returned_all.
    apply Forall_forall. intros o Ho. apply list_elem_of_lookup in Ho as [i Hi].
    unfold os in Hi. rewrite list_lookup_imap in Hi.
    destruct (tasks !! i) as [t|] eqn:Ht; [|discriminate]. injection Hi as <-.
    rewrite Hperm in Hok. rewrite Forall_forall in Hok.
    apply (Hok (i, ((attempts x + i)%nat, fst t))).
    apply list_elem_of_lookup. exists i. unfold started.
    rewrite !list_lookup_imap, Ht. reflexivity.
Qed.


Lemma gather_total tasks x :
  pages_behave env ->
  exists rs x', gather env tasks x = (Returned rs, x').
Proof.
  intros Hpages. unfold gather, bind.
  destruct (start_all_run tasks x) as (x1 & -> & _).
  match goal with |- context [complete_all env ?o ?s x1] =>
    destruct (complete_all_total env o s x1) as (s' & x2 & ->)
  end.
  - apply Forall_forall. intros [idx [n url]] _. simpl.
    destruct (Hpages n). now apply attempt_outcome_total.
  - eexists _, _. reflexivity.
Qed.

(** The tasks of a group: one per URL, in order, each bound to the context
    at its position modulo the size of the pool. *)
Lemma make_tasks_run batch : forall idx x o x',
  make_tasks idx batch x = (o, x') ->
  x' = x
  /\ forall tasks, o = Returned tasks ->
       map fst tasks = batch
       /\ forall j t, tasks !! j = Some t ->
            contexts x !! ((idx + j) mod length (contexts x))%nat = Some (snd t).
Proof.
  induction batch as [|url batch IH]; intros idx x o x' Hrun.
  - injection Hrun as <- <-. split; [reflexivity|].
    intros tasks [= <-]. split; [reflexivity|]. intros j t Hj. discriminate.
  - cbn [make_tasks] in Hrun. unfold bind at 1, get in Hrun.
    destruct (length (contexts x) =? 0)%nat; [now injection Hrun as <- <-|].
    destruct (contexts x !! (idx mod length (contexts x))%nat) as [context|] eqn:Hctx;
      [|now injection Hrun as <- <-].
    unfold bind in Hrun.
    destruct (make_tasks (S idx) batch x) as [[tasks|e] x1] eqn:Hrest.
    + destruct (IH _ _ _ _ Hrest) as [-> Htasks].
      injection Hrun as <- <-. split; [reflexivity|].
      intros ? [= <-]. destruct (Htasks tasks eq_refl) as [Hurls Hbound].
      split; [simpl; now rewrite Hurls|].
      intros [|j] t Hj; simpl in Hj.
      * injection Hj as <-. simpl. now rewrite Nat.add_0_r.
      * replace (idx + S j)%nat with (S idx + j)%nat by lia. now apply Hbound.
    + destruct (IH _ _ _ _ Hrest) as [-> _]. now injection Hrun as <- <-.
Qed.

Lemma make_tasks_total batch : forall idx x,
  contexts x <> [] ->
  exists tasks, make_tasks idx batch x = (Returned tasks, x).
Proof.
  induction batch as [|url batch IH]; intros idx x Hne.
  - eexists. reflexivity.
  - cbn [make_tasks]. unfold bind at 1, get.
    destruct (Nat.eqb_spec (length (contexts x)) 0) as [H0|Hpos].
    { destruct (contexts x); [contradiction | discriminate]. }
    destruct (lookup_lt_is_Some_2 (contexts x) (idx mod length (contexts x))%nat)
      as [context ->].
    { apply Nat.mod_upper_bound. exact Hpos. }
    unfold bind. destruct (IH (S idx) x Hne) as [tasks ->].
    eexists. reflexivity.
Qed.

(** ** Groups *)

Lemma slice_forward {A} (l : list A) (i c : Z) :
  0 <= i -> 0 <= c ->
  slice l i (i + c) = take (Z.to_nat c) (drop (Z.to_nat i) l).
Proof.
  intros Hi Hc. unfold slice, clamp_index.
  destruct (Z.ltb_spec i 0); [lia|]. destruct (Z.ltb_spec (i + c) 0); [lia|].
  apply list_eq. intros k.
  destruct (decide (k < Z.to_nat (Z.min (i + c) (Z.of_nat (length l))
                                 - Z.min i (Z.of_nat (length l))))%nat) as [Hk|Hk].
  - rewrite lookup_take_lt by lia. rewrite lookup_take_lt by lia.
    rewrite !lookup_drop. f_equal. lia.
  - rewrite lookup_take_ge by lia.
    destruct (decide (k < Z.to_nat c)%nat).
    + rewrite lookup_take_lt by lia. rewrite lookup_drop.
      symmetry. apply lookup_ge_None. lia.
    + now rewrite lookup_take_ge by lia.
Qed.

Lemma slice_length {A} (l : list A) (i c : Z) :
  0 <= i -> 0 <= c -> Z.of_nat (length (slice l i (i + c))) <= c.
Proof.
  intros Hi Hc. rewrite slice_forward by assumption. rewrite length_take. lia.
Qed.

Lemma range_up_nonneg fuel : forall i stop step,
  0 <= i -> 0 < step -> Forall (fun k => 0 <= k) (range_up fuel i stop step).
Proof.
  induction fuel as [|fuel IH]; intros i stop step Hi Hstep; simpl; [constructor|].
  destruct (i <? stop); constructor; [exact Hi | apply IH; lia].
Qed.

Lemma range_up_slices {A} (l : list A) (c : Z) fuel : forall i,
  0 < c -> 0 <= i -> Z.of_nat (length l) - i <= Z.of_nat fuel ->
  concat (map (fun k => slice l k (k + c)) (range_up fuel i (Z.of_nat (length l)) c))
  = drop (Z.to_nat i) l.
Proof.
  induction fuel as [|fuel IH]; intros i Hc Hi Hfuel; simpl.
  - rewrite drop_ge by lia. reflexivity.
  - destruct (Z.ltb_spec i (Z.of_nat (length l))).
    + simpl. rewrite IH by lia. rewrite slice_forward by lia.
      replace (Z.to_nat (i + c)) with (Z.to_nat i + Z.to_nat c)%nat by lia.
      rewrite <- drop_drop. apply take_drop.
    + rewrite drop_ge by lia. reflexivity.
Qed.

Lemma range_forward stop step :
  0 < step -> range 0 stop step = Returned (range_up (Z.to_nat stop) 0 stop step).
Proof.
  intros Hstep. unfold range.
  destruct (Z.eqb_spec step 0); [lia|]. destruct (Z.ltb_spec 0 step); [|lia].
  now rewrite Z.sub_0_r.
Qed.

Lemma groups_concat embed_urls c :
  0 < c -> concat (groups embed_urls c) = embed_urls.
Proof.
  intros Hc. unfold groups. rewrite range_forward by exact Hc.
  rewrite (range_up_slices embed_urls c) by lia. reflexivity.
Qed.

Lemma groups_bounded embed_urls c :
  0 < c -> Forall (fun g => Z.of_nat (length g) <= c) (groups embed_urls c).
Proof.
  intros Hc. unfold groups. rewrite range_forward by exact Hc.
  apply Forall_fmap. eapply Forall_impl; [apply range_up_nonneg; lia|].
  intros k Hk. simpl in *. apply slice_length; lia.
Qed.

End Groups.

Section Batches.

Variable env : environment.

Lemma batch_loop_run embed_urls starts : forall results x o x',
  0 < concurrency (config x) ->
  Forall (fun k => 0 <= k) starts ->
  batch_loop env embed_urls starts results x = (o, x') ->
  let c := concurrency (config x) in
  let gs := map (fun k => slice embed_urls k (k + c)) starts in
  same_pool x x'
  /\ (consistent (stats x) -> consistent (stats x'))
  /\ exists new,
       journal x' = journal x ++ new
       /\ bounded c new
       /\ passes new = []
       /\ dispatched new `prefix_of` concat gs
       /\ forall rs, o = Returned rs ->
            in_flight new = 0
            /\ dispatched new = concat gs
            /\ (exists blocks, new = concat blocks /\ Forall2 group_block gs blocks)
            /\ attempts x' = (attempts x + length (concat gs))%nat
            /\ exists more,
                 rs = results ++ more
                 /\ Returned <$> more
                    = imap (fun j u => attempt_outcome env (config x) (attempts x + j) u)
                        (concat gs).
Proof.
  induction starts as [|k starts IH]; intros results x o x' Hc Hstarts Hrun c gs.
  - injection Hrun as <- <-.
    split; [apply same_pool_refl|]. split; [auto|].
    exists []. rewrite app_nil_r.
    split; [reflexivity|]. split; [apply bounded_nil; subst c; lia|].
    split; [reflexivity|]. split; [reflexivity|].
    intros rs [= <-]. split; [reflexivity|]. split; [reflexivity|].
    split; [exists []; split; [reflexivity | constructor]|].
    split; [simpl; lia|]. exists []. now rewrite app_nil_r.
  - apply Forall_cons in Hstarts as [Hk Hstarts].
    cbn [batch_loop] in Hrun. unfold bind at 1, get in Hrun. fold c in Hrun.
    set (batch := slice embed_urls k (k + c)) in *.
    assert (Hbatch : Z.of_nat (length batch) <= c) by (apply slice_length; lia).
    subst gs. cbn [map concat]. fold batch.
    set (gs := map (fun k => slice embed_urls k (k + c)) starts).
    unfold bind at 1 in Hrun.
    destruct (make_tasks 0 batch x) as [[tasks|e] x0] eqn:Htasks.
    2:{ destruct (make_tasks_run _ _ _ _ _ Htasks) as [-> _].
        injection Hrun as <- <-.
        split; [apply same_pool_refl|]. split; [auto|].
        exists []. rewrite app_nil_r.
        split; [reflexivity|]. split; [apply bounded_nil; lia|].
        split; [reflexivity|]. split; [apply prefix_nil|]. intros rs; discriminate. }
    destruct (make_tasks_run _ _ _ _ _ Htasks) as [-> Hmk].
    destruct (Hmk tasks eq_refl) as [Hurls _].
    assert (Hlen : length tasks = length batch) by (rewrite <- Hurls; now rewrite length_map).
    unfold bind at 1 in Hrun.
    destruct (gather env tasks x) as [[brs|e] x1] eqn:Hgather.
    2:{ destruct (gather_run env _ _ _ _ Hgather)
          as (Hpool & _ & Hcons & fs & Hj & Hfs & Hfslen & _).
        injection Hrun as <- <-.
        destruct (started_entries_facts tasks (attempts x)) as (Hss & Hdisp & _ & Hsslen).
        split; [exact Hpool|]. split; [exact Hcons|].
        exists (started_entries (attempts x) tasks ++ fs).
        split; [exact Hj|].
        split; [apply bounded_block; auto; lia|].
        split; [rewrite passes_app, (proj1 (started_quiet _ Hss));
                now rewrite (proj1 (proj2 (finished_quiet _ Hfs)))|].
        split; [|intros rs; discriminate].
        rewrite dispatched_app, (proj1 (finished_quiet _ Hfs)), app_nil_r, Hdisp, Hurls.
        now apply prefix_app_r. }
    destruct (gather_run env _ _ _ _ Hgather)
      as (Hpool & Hatt & Hcons & fs & Hj & Hfs & Hfslen & Hret).
    destruct (Hret brs eq_refl) as [Hperm Hbrs].
    destruct (started_entries_facts tasks (attempts x)) as (Hss & Hdisp & _ & Hsslen).
    set (ss := started_entries (attempts x) tasks) in *.
    assert (Hcfg : config x1 = config x) by apply Hpool.
    assert (Hfseq : length fs = length ss).
    { rewrite <- (finished_ids_length fs Hfs), <- (started_ids_length ss Hss).
      now apply Permutation_length. }
    assert (Hzero : in_flight (ss ++ fs) = 0).
    { rewrite in_flight_app, in_flight_started, in_flight_finished by assumption. lia. }
    assert (Hblock : group_block batch (ss ++ fs)).
    { exists ss, fs. repeat split; auto. now rewrite Hdisp. }
    assert (Hc1 : 0 < concurrency (config x1)) by now rewrite Hcfg.
    destruct (IH _ _ _ _ Hc1 Hstarts Hrun)
      as (Hpool' & Hcons' & new & Hj' & Hbounded & Hpasses & Hprefix & Hret').
    rewrite Hcfg in *. fold c gs in Hbounded, Hprefix, Hret'.
    split; [eapply same_pool_trans; eauto|]. split; [auto|].
    exists ((ss ++ fs) ++ new).
    split; [rewrite Hj', Hj, <- !app_assoc; reflexivity|].
    split; [apply bounded_app; auto; apply bounded_block; auto; lia|].
    split; [rewrite !passes_app, (proj1 (started_quiet _ Hss)),
              (proj1 (proj2 (finished_quiet _ Hfs))), Hpasses; reflexivity|].
    assert (Hdisp' : dispatched ((ss ++ fs) ++ new) = batch ++ dispatched new).
    { rewrite !dispatched_app, (proj1 (finished_quiet _ Hfs)), app_nil_r, Hdisp, Hurls.
      reflexivity. }
    split; [rewrite Hdisp'; now apply prefix_app|].
    intros rs ->.
    destruct (Hret' rs eq_refl) as (Hzero' & Hall & (blocks & -> & Hblocks) & Hatt' & more & -> & Hmore).
    split; [rewrite in_flight_app, Hzero, Hzero'; reflexivity|].
    split; [rewrite Hdisp', Hall; reflexivity|].
    split; [exists ((ss ++ fs) :: blocks); split; [reflexivity | now constructor]|].
    split; [rewrite Hatt', Hatt, length_app, Hlen; lia|].
    exists (brs ++ more). split; [now rewrite app_assoc|].
    rewrite fmap_app, Hbrs, Hmore, imap_app. f_equal.
    + rewrite <- Hurls, imap_fmap. apply imap_ext. reflexivity.
    + apply imap_ext. intros j u _. simpl. f_equal. rewrite Hatt, Hlen. lia.
Qed.


Lemma batch_loop_total embed_urls starts : forall results x,
  pages_behave env -> contexts x <> [] ->
  exists rs x', batch_loop env embed_urls starts results x = (Returned rs, x').
Proof.
  induction starts as [|k starts IH]; intros results x Hpages Hctx.
  - eexists _, _. reflexivity.
  - cbn [batch_loop]. unfold bind at 1, get. unfold bind at 1.
    destruct (make_tasks_total (slice embed_urls k (k + concurrency (config x))) 0 x Hctx)
      as [tasks ->].
    unfold bind at 1.
    destruct (gather_total env tasks x Hpages) as (brs & x1 & Hgather).
    rewrite Hgather. apply IH; [exact Hpages|].
    destruct (gather_run env _ _ _ _ Hgather) as ((_ & _ & _ & ->) & _). exact Hctx.
Qed.

(** ** The pool *)

Lemma pool_entries_quiet l :
  Forall is_pool_entry l ->
  in_flight l = 0 /\ passes l = [] /\ dispatched l = [].
Proof.
  induction 1 as [|e l He _ (IH1 & IH2 & IH3)]; [now repeat split|].
  destruct e; try contradiction; repeat split; auto.
Qed.

Lemma pool_entries_bounded c l :
  0 <= c -> Forall is_pool_entry l -> bounded c l.
Proof.
  intros Hc Hl p Hp.
  rewrite (proj1 (pool_entries_quiet p (Forall_prefix _ _ _ Hp Hl))). exact Hc.
Qed.

Lemma new_contexts_run ids : forall x o x',
  new_contexts env ids x = (o, x') ->
  config x' = config x /\ stats x' = stats x /\ attempts x' = attempts x
  /\ browser x' = browser x
  /\ exists new,
       journal x' = journal x ++ new /\ Forall is_pool_entry new
       /\ (o = Returned tt -> contexts x' = contexts x ++ ids).
Proof.
  induction ids as [|i ids IH]; intros x o x' Hrun.
  - injection Hrun as <- <-. repeat split; auto.
    exists []. rewrite !app_nil_r. repeat split; auto.
  - cbn [new_contexts] in Hrun.
    destruct (new_context_error env i).
    { injection Hrun as <- <-. repeat split; auto.
      exists []. rewrite app_nil_r. repeat split; auto. discriminate. }
    unfold bind at 1, modify in Hrun.
    destruct (IH _ _ _ Hrun) as (H1 & H2 & H3 & H4 & new & Hj & Hnew & Hret).
    simpl in *. repeat split; auto.
    exists (ContextOpened i :: new).
    split; [rewrite Hj, <- app_assoc; reflexivity|].
    split; [constructor; [exact I | exact Hnew]|].
    intros Ho. rewrite (Hret Ho), <- app_assoc. reflexivity.
Qed.

Lemma new_contexts_total ids : forall x,
  (forall i, new_context_error env i = None) ->
  exists x', new_contexts env ids x = (Returned tt, x').
Proof.
  induction ids as [|i ids IH]; intros x Hok.
  - eexists. reflexivity.
  - cbn [new_contexts]. rewrite Hok. unfold bind at 1, modify. now apply IH.
Qed.

Lemma initialize_run x o x' :
  initialize env x = (o, x') ->
  config x' = config x /\ stats x' = stats x /\ attempts x' = attempts x
  /\ exists new,
       journal x' = journal x ++ new /\ Forall is_pool_entry new
       /\ (o = Returned tt ->
           browser x' = Some tt
           /\ contexts x' = contexts x ++ seq 0 (Z.to_nat (concurrency (config x)))).
Proof.
  unfold initialize. intros Hrun.
  destruct (start_error env).
  { injection Hrun as <- <-. repeat split; auto.
    exists []. rewrite app_nil_r. repeat split; auto; discriminate. }
  unfold bind at 1, modify in Hrun.
  destruct (launch_error env).
  { injection Hrun as <- <-. repeat split; auto.
    exists []. rewrite app_nil_r. repeat split; auto; discriminate. }
  unfold bind at 1, modify in Hrun. unfold bind at 1, get in Hrun.
  destruct (new_contexts_run _ _ _ _ Hrun) as (H1 & H2 & H3 & H4 & new & Hj & Hnew & Hret).
  simpl in *. repeat split; auto.
  exists (Launched :: new).
  split; [rewrite Hj, <- app_assoc; reflexivity|].
  split; [constructor; [exact I | exact Hnew]|].
  intros Ho. split; [exact H4 | exact (Hret Ho)].
Qed.

Lemma initialize_total x :
  engine_starts env -> exists x', initialize env x = (Returned tt, x').
Proof.
  intros (Hstart & Hlaunch & Hctx). unfold initialize. rewrite Hstart.
  unfold bind at 1, modify. rewrite Hlaunch.
  unfold bind at 1, modify. unfold bind at 1, get.
  now apply new_contexts_total.
Qed.

End Batches.

Section Passes.

Variable env : environment.

(** One pass over [embed_urls], once the pool is there. *)
Lemma pass_run embed_urls x o x' :
  0 < concurrency (config x) ->
  (modify (record (Pass embed_urls));;
   x <- get;;
   starts <- lift (range 0 (Z.of_nat (length embed_urls)) (concurrency (config x)));;
   batch_loop env embed_urls starts []) x = (o, x') ->
  let c := concurrency (config x) in
  same_pool x x'
  /\ (consistent (stats x) -> consistent (stats x'))
  /\ exists new,
       journal x' = journal x ++ Pass embed_urls :: new
       /\ bounded c new
       /\ passes new = []
       /\ dispatched new `prefix_of` embed_urls
       /\ forall rs, o = Returned rs ->
            in_flight new = 0
            /\ dispatched new = embed_urls
            /\ (exists blocks,
                  new = concat blocks /\ Forall2 group_block (groups embed_urls c) blocks)
            /\ attempts x' = (attempts x + length embed_urls)%nat
            /\ Returned <$> rs
               = imap (fun j u => attempt_outcome env (config x) (attempts x + j) u)
                   embed_urls.
Proof.
  intros Hc Hrun c.
  unfold bind at 1, modify in Hrun. unfold bind at 1, get in Hrun.
  unfold bind at 1, lift in Hrun. cbn [config record] in Hrun. fold c in Hrun.
  rewrite (range_forward _ c Hc) in Hrun.
  set (starts := range_up _ _ _ _) in Hrun.
  assert (Hgs : map (fun k => slice embed_urls k (k + c)) starts = groups embed_urls c).
  { unfold groups. now rewrite (range_forward _ c Hc). }
  assert (Hnn : Forall (fun k => 0 <= k) starts) by (apply range_up_nonneg; lia).
  destruct (batch_loop_run env _ _ _ (record (Pass embed_urls) x) _ _ Hc Hnn Hrun)
    as (Hpool & Hcons & new & Hj & Hbounded & Hpasses & Hprefix & Hret).
  cbn [config record journal attempts stats] in *. fold c in Hbounded, Hprefix, Hret.
  rewrite Hgs in Hprefix, Hret.
  rewrite (groups_concat embed_urls c Hc) in Hprefix, Hret.
  split; [exact Hpool|]. split; [exact Hcons|].
  exists new. split; [rewrite Hj, <- app_assoc; reflexivity|].
  split; [exact Hbounded|]. split; [exact Hpasses|]. split; [exact Hprefix|].
  intros rs Ho. destruct (Hret rs Ho) as (H1 & H2 & H3 & H4 & more & -> & Hmore).
  repeat split; auto.
Qed.

Lemma pass_total embed_urls x :
  0 < concurrency (config x) -> pages_behave env -> contexts x <> [] ->
  exists rs x',
    (modify (record (Pass embed_urls));;
     x <- get;;
     starts <- lift (range 0 (Z.of_nat (length embed_urls)) (concurrency (config x)));;
     batch_loop env embed_urls starts []) x = (Returned rs, x').
Proof.
  intros Hc Hpages Hctx.
  unfold bind at 1, modify. unfold bind at 1, get.
  unfold bind at 1, lift. cbn [config record].
  rewrite (range_forward _ _ Hc). now apply batch_loop_total.
Qed.

Lemma bounded_cons_quiet c e j :
  weight e = 0 -> 0 <= c -> bounded c j -> bounded c (e :: j).
Proof.
  intros He Hc Hj. change (e :: j) with ([e] ++ j).
  apply bounded_app; [now apply bounded_single | | exact Hj].
  unfold in_flight. simpl. lia.
Qed.

Lemma pooled_pass_run embed_urls x x0 pool o x' :
  0 < concurrency (config x) ->
  config x0 = config x -> stats x0 = stats x -> attempts x0 = attempts x ->
  journal x0 = journal x ++ pool -> Forall is_pool_entry pool ->
  browser x0 <> None -> (usable x -> contexts x0 <> []) ->
  (modify (record (Pass embed_urls));;
   x <- get;;
   starts <- lift (range 0 (Z.of_nat (length embed_urls)) (concurrency (config x)));;
   batch_loop env embed_urls starts []) x0 = (o, x') ->
  let c := concurrency (config x) in
  config x' = config x
  /\ (consistent (stats x) -> consistent (stats x'))
  /\ exists new,
       journal x' = journal x ++ new
       /\ bounded c new
       /\ passes new `prefix_of` [embed_urls]
       /\ dispatched new `prefix_of` embed_urls
       /\ forall rs, o = Returned rs ->
            in_flight new = 0
            /\ passes new = [embed_urls]
            /\ dispatched new = embed_urls
            /\ (exists pool blocks,
                  new = pool ++ Pass embed_urls :: concat blocks
                  /\ Forall is_pool_entry pool
                  /\ Forall2 group_block (groups embed_urls c) blocks)
            /\ attempts x' = (attempts x + length embed_urls)%nat
            /\ Returned <$> rs
               = imap (fun j u => attempt_outcome env (config x) (attempts x + j) u)
                   embed_urls
            /\ browser x' <> None
            /\ (usable x -> contexts x' <> []).
Proof.
  intros Hc Hcfg Hstats Hatt Hj Hpool Hb' Hctx' Hrest c.
  destruct (pool_entries_quiet pool Hpool) as (Hq1 & Hq2 & Hq3).
  assert (Hc0 : 0 < concurrency (config x0)) by now rewrite Hcfg.
  destruct (pass_run _ _ _ _ Hc0 Hrest)
    as (Hsame & Hcons & new & Hj' & Hbounded & Hpasses & Hprefix & Hret).
  rewrite Hcfg, Hstats, Hatt in *. fold c in Hbounded, Hret.
  split; [destruct Hsame as (-> & _); exact Hcfg|]. split; [exact Hcons|].
  exists (pool ++ Pass embed_urls :: new).
  split; [rewrite Hj', Hj, <- app_assoc; reflexivity|].
  split.
  { apply bounded_app; [apply pool_entries_bounded; [subst c; lia | exact Hpool]
                       | exact Hq1 |].
    apply bounded_cons_quiet; [reflexivity | subst c; lia | exact Hbounded]. }
  split; [rewrite passes_app, Hq2; simpl; now rewrite Hpasses|].
  split; [rewrite dispatched_app, Hq3; simpl; exact Hprefix|].
  intros rs Ho. destruct (Hret rs Ho) as (H1 & H2 & (blocks & -> & Hblocks) & H4 & H5).
  split.
  { rewrite in_flight_app, Hq1. change (Pass embed_urls :: concat blocks)
      with ([Pass embed_urls] ++ concat blocks). rewrite in_flight_app, H1. reflexivity. }
  split; [rewrite passes_app, Hq2; simpl; now rewrite Hpasses|].
  split; [rewrite dispatched_app, Hq3; simpl; exact H2|].
  split; [exists pool, blocks; now repeat split|].
  split; [exact H4|]. split; [exact H5|].
  destruct Hsame as (_ & _ & Hbx & Hcx). rewrite Hbx, Hcx. now split.
Qed.

Lemma seq_nonempty n : (0 < n)%nat -> forall l : list nat, l ++ seq 0 n <> [].
Proof.
  intros Hn l Heq. apply (f_equal length) in Heq.
  rewrite length_app, length_seq in Heq. simpl in Heq. lia.
Qed.

Lemma extract_batch_run embed_urls x o x' :
  0 < concurrency (config x) ->
  extract_batch env embed_urls x = (o, x') ->
  let c := concurrency (config x) in
  config x' = config x
  /\ (consistent (stats x) -> consistent (stats x'))
  /\ exists new,
       journal x' = journal x ++ new
       /\ bounded c new
       /\ passes new `prefix_of` [embed_urls]
       /\ dispatched new `prefix_of` embed_urls
       /\ forall rs, o = Returned rs ->
            in_flight new = 0
            /\ passes new = [embed_urls]
            /\ dispatched new = embed_urls
            /\ (exists pool blocks,
                  new = pool ++ Pass embed_urls :: concat blocks
                  /\ Forall is_pool_entry pool
                  /\ Forall2 group_block (groups embed_urls c) blocks)
            /\ attempts x' = (attempts x + length embed_urls)%nat
            /\ Returned <$> rs
               = imap (fun j u => attempt_outcome env (config x) (attempts x + j) u)
                   embed_urls
            /\ browser x' <> None
            /\ (usable x -> contexts x' <> []).
Proof.
  intros Hc Hrun c. unfold extract_batch in Hrun.
  unfold bind at 1, get in Hrun. unfold bind at 1 in Hrun.
  destruct (browser x) as [[]|] eqn:Hb.
  - unfold ret in Hrun.
    apply (pooled_pass_run embed_urls x x [] o x'); auto.
    + now rewrite app_nil_r.
    + congruence.
    + intros [Hu|Hu]; congruence.
  - destruct (initialize env x) as [[[]|e] x0] eqn:Hinit.
    + destruct (initialize_run env _ _ _ Hinit) as (H1 & H2 & H3 & pool & Hj & Hpool & Hret).
      destruct (Hret eq_refl) as [Hb' Hctx'].
      apply (pooled_pass_run embed_urls x x0 pool o x'); auto.
      * congruence.
      * intros _. rewrite Hctx'. apply seq_nonempty. lia.
    + destruct (initialize_run env _ _ _ Hinit) as (H1 & H2 & H3 & pool & Hj & Hpool & _).
      injection Hrun as <- <-.
      destruct (pool_entries_quiet pool Hpool) as (Hq1 & Hq2 & Hq3).
      split; [exact H1|]. split; [now rewrite H2|].
      exists pool. split; [exact Hj|].
      split; [apply pool_entries_bounded; [subst c; lia | exact Hpool]|].
      split; [rewrite Hq2; apply prefix_nil|].
      split; [rewrite Hq3; apply prefix_nil|].
      intros rs; discriminate.
Qed.

Lemma extract_batch_total embed_urls x :
  0 < concurrency (config x) -> engine_starts env -> pages_behave env -> usable x ->
  exists rs x', extract_batch env embed_urls x = (Returned rs, x').
Proof.
  intros Hc Hengine Hpages Husable. unfold extract_batch.
  unfold bind at 1, get. unfold bind at 1.
  destruct (browser x) as [[]|] eqn:Hb.
  - unfold ret. apply pass_total; auto.
    destruct Husable as [Hu|Hu]; [congruence | exact Hu].
  - destruct (initialize_total env x Hengine) as [x0 Hinit]. rewrite Hinit.
    destruct (initialize_run env _ _ _ Hinit) as (H1 & _ & _ & pool & _ & _ & Hret).
    destruct (Hret eq_refl) as [_ Hctx].
    apply pass_total; [now rewrite H1 | exact Hpages |].
    rewrite Hctx. apply seq_nonempty. lia.
Qed.

End Passes.

Section Retry.

Variable env : environment.

Lemma outcomes_pointwise (rs : list result) (f : nat -> string -> outcome result)
    (urls : list string) :
  Returned <$> rs = imap f urls ->
  length rs = length urls
  /\ forall i url, urls !! i = Some url ->
       exists r, rs !! i = Some r /\ f i url = Returned r.
Proof.
  intros Heq. split.
  - apply (f_equal length) in Heq. now rewrite length_fmap, length_imap in Heq.
  - intros i url Hi. apply (f_equal (fun l => l !! i)) in Heq.
    rewrite list_lookup_fmap, list_lookup_imap, Hi in Heq. simpl in Heq.
    destruct (rs !! i) as [r|]; [|discriminate]. injection Heq as Heq. eauto.
Qed.

Lemma outcomes_urls cfg n0 (rs : list result) (urls : list string) :
  Returned <$> rs = imap (fun j u => attempt_outcome env cfg (n0 + j) u) urls ->
  map embedUrl rs = urls.
Proof.
  intros Heq. destruct (outcomes_pointwise _ _ _ Heq) as [Hlen Hpt].
  apply list_eq. intros i. rewrite list_lookup_fmap.
  destruct (urls !! i) as [url|] eqn:Hi.
  - destruct (Hpt i url Hi) as (r & -> & Hr). simpl.
    now rewrite (attempt_outcome_url _ _ _ _ _ Hr).
  - apply lookup_ge_None in Hi. rewrite <- Hlen in Hi.
    apply lookup_ge_None in Hi. now rewrite Hi.
Qed.

(** The three ways [extract] can go. *)
Lemma extract_run embed_urls x o x' :
  extract env embed_urls x = (o, x') ->
  (exists e, extract_batch env embed_urls x = (Raised e, x') /\ o = Raised e)
  \/ exists first x1,
       extract_batch env embed_urls x = (Returned first, x1)
       /\ (((retries (config x1) <= 0 \/ retry_urls_of first = [])
            /\ o = Returned first /\ x' = x1)
           \/ (0 < retries (config x1) /\ retry_urls_of first <> []
               /\ exists o2,
                    extract_batch env (retry_urls_of first) x1 = (o2, x')
                    /\ o = match o2 with
                           | Returned retry_results => Returned (merge retry_results first)
                           | Raised e => Raised e
                           end)).
Proof.
  unfold extract, retry_urls_of. unfold bind at 1.
  destruct (extract_batch env embed_urls x) as [[first|e] x1] eqn:Hfirst.
  2:{ intros [= <- <-]. left. eauto. }
  intros Hrun. right. exists first, x1. split; [reflexivity|].
  unfold bind at 1, get in Hrun.
  destruct (Z.ltb_spec 0 (retries (config x1))) as [Hr|Hr].
  - destruct (filter (fun r => success r = false) first) as [|r0 failed] eqn:Hfailed.
    + injection Hrun as <- <-. left. split; [now right | now split].
    + right. split; [exact Hr|]. split; [discriminate|].
      unfold bind in Hrun.
      destruct (extract_batch env (map embedUrl (r0 :: failed)) x1) as [[retry|e] x2] eqn:Hretry;
        injection Hrun as <- <-; eexists; split; reflexivity.
  - injection Hrun as <- <-. left. split; [left; lia | now split].
Qed.

End Retry.

(** ** Batches keep the input order *)

Lemma scenario_engine_starts page : engine_starts (browser_with page).
Proof. now repeat split. Qed.

Lemma three_pages_behave : pages_behave (browser_with three_pages).
Proof. intros [|[|[|[|n]]]]; now split. Qed.

(** C3: a batch run returns its results in input order: the result at
    position i is the one the i-th dispatched attempt returned for the URL
    at position i, whatever the order in which the attempts of a group
    complete. *)
Theorem extract_batch_keeps_order env embed_urls x :
  0 < concurrency (config x) ->
  (engine_starts env -> pages_behave env -> usable x ->
   exists rs x', extract_batch env embed_urls x = (Returned rs, x'))
  /\ forall rs x',
       extract_batch env embed_urls x = (Returned rs, x') ->
       length rs = length embed_urls
       /\ map embedUrl rs = embed_urls
       /\ (forall i url,
             embed_urls !! i = Some url ->
             exists r,
               rs !! i = Some r /\ embedUrl r = url
               /\ attempt_outcome env (config x) (attempts x + i) url = Returned r)
       /\ exists new, journal x' = journal x ++ new /\ dispatched new = embed_urls.
Proof.
  intros Hc. split; [intros; now apply extract_batch_total|].
  intros rs x' Hrun.
  destruct (extract_batch_run env _ _ _ _ Hc Hrun) as (_ & _ & new & Hj & _ & _ & _ & Hret).
  destruct (Hret rs eq_refl) as (_ & _ & Hdisp & _ & _ & Hrs & _).
  destruct (outcomes_pointwise _ _ _ Hrs) as [Hlen Hpt].
  split; [exact Hlen|]. split; [exact (outcomes_urls env _ _ _ _ Hrs)|].
  split; [|exists new; now split].
  intros i url Hi. destruct (Hpt i url Hi) as (r & Hr & Hout).
  exists r. split; [exact Hr|]. split; [|exact Hout].
  exact (attempt_outcome_url env _ _ _ _ Hout).
Qed.

Lemma extract_batch_keeps_order_witness :
  exists rs x',
    extract_batch (browser_with three_pages) three_embeds (init small_config)
    = (Returned rs, x')
    /\ map embedUrl rs = three_embeds.
Proof.
  destruct (extract_batch_keeps_order (browser_with three_pages) three_embeds
              (init small_config)) as [Htotal Hprop].
  - reflexivity.
  - destruct Htotal as (rs & x' & Hrun).
    + apply scenario_engine_starts.
    + apply three_pages_behave.
    + now left.
    + exists rs, x'. split; [exact Hrun|]. apply (Hprop rs x' Hrun).
Defined.

(** ** Groups bound the attempts in flight *)

Lemma range_up_below fuel : forall i stop step,
  Forall (fun k => k < stop) (range_up fuel i stop step).
Proof.
  induction fuel as [|fuel IH]; intros i stop step; simpl; [constructor|].
  destruct (Z.ltb_spec i stop); constructor; [assumption | apply IH].
Qed.

Lemma groups_nonempty embed_urls c :
  0 < c -> Forall (fun g => g <> []) (groups embed_urls c).
Proof.
  intros Hc. unfold groups. rewrite range_forward by exact Hc.
  apply Forall_fmap.
  pose proof (range_up_nonneg (Z.to_nat (Z.of_nat (length embed_urls))) 0
                (Z.of_nat (length embed_urls)) c (Z.le_refl 0) Hc) as Hnn.
  pose proof (range_up_below (Z.to_nat (Z.of_nat (length embed_urls))) 0
                (Z.of_nat (length embed_urls)) c) as Hlt.
  rewrite Forall_forall in *. intros k Hk. specialize (Hnn k Hk). specialize (Hlt k Hk).
  simpl in *. rewrite slice_forward by lia. intros Heq.
  apply (f_equal length) in Heq. rewrite length_take, length_drop in Heq.
  simpl in Heq. lia.
Qed.

(** C6: the batch scheduler cuts its input into consecutive groups of at
    most [concurrency] URLs and awaits a whole group before it dispatches
    the next one, so that at no point of a batch run more than
    [concurrency] attempts are in flight. *)
Theorem extract_batch_bounds_in_flight env embed_urls x o x' :
  0 < concurrency (config x) ->
  extract_batch env embed_urls x = (o, x') ->
  let c := concurrency (config x) in
  concat (groups embed_urls c) = embed_urls
  /\ Forall (fun g => g <> [] /\ Z.of_nat (length g) <= c) (groups embed_urls c)
  /\ exists new,
       journal x' = journal x ++ new
       /\ (forall p, p `prefix_of` new -> in_flight p <= c)
       /\ forall rs, o = Returned rs ->
            in_flight new = 0
            /\ exists pool blocks,
                 new = pool ++ Pass embed_urls :: concat blocks
                 /\ Forall is_pool_entry pool
                 /\ Forall2 group_block (groups embed_urls c) blocks.
Proof.
  intros Hc Hrun c.
  split; [now apply groups_concat|].
  split.
  { pose proof (groups_nonempty embed_urls c Hc) as H1.
    pose proof (groups_bounded embed_urls c Hc) as H2.
    rewrite Forall_forall in *. intros g Hg. split; auto. }
  destruct (extract_batch_run env _ _ _ _ Hc Hrun)
    as (_ & _ & new & Hj & Hbounded & _ & _ & Hret).
  exists new. split; [exact Hj|]. split; [exact Hbounded|].
  intros rs Ho. destruct (Hret rs Ho) as (H0 & _ & _ & Hshape & _). now split.
Qed.

Lemma extract_batch_bounds_in_flight_witness :
  exists new,
    journal (snd (extract_batch (browser_with three_pages) three_embeds
                    (init small_config))) = new
    /\ forall p, p `prefix_of` new -> in_flight p <= 2.
Proof.
  destruct (extract_batch_bounds_in_flight (browser_with three_pages) three_embeds
              (init small_config)
              (fst (extract_batch (browser_with three_pages) three_embeds
                      (init small_config)))
              (snd (extract_batch (browser_with three_pages) three_embeds
                      (init small_config))))
    as (_ & _ & new & Hj & Hbounded & _).
  - reflexivity.
  - apply surjective_pairing.
  - exists new. split; [exact Hj | exact Hbounded].
Defined.

(** ** Retrying *)

(** C5: [extract] retries at most once.  With [retries > 0] and a failure in
    the first pass, exactly one more batch pass is run, over the failed URLs
    in their original order, however large [retries] is; otherwise the first
    pass is the only one.  Whatever the outcome, no more than two passes are
    run, and with [retries = 0] nothing is attempted beyond the input. *)
Theorem extract_retries_once env embed_urls x :
  0 < concurrency (config x) ->
  (forall rs x',
     extract env embed_urls x = (Returned rs, x') ->
     exists first x1 new,
       extract_batch env embed_urls x = (Returned first, x1)
       /\ journal x' = journal x ++ new
       /\ ((retries (config x) <= 0 \/ retry_urls_of first = []) ->
           passes new = [embed_urls] /\ dispatched new = embed_urls)
       /\ (0 < retries (config x) -> retry_urls_of first <> [] ->
           passes new = [embed_urls; retry_urls_of first]
           /\ dispatched new = embed_urls ++ retry_urls_of first))
  /\ (forall o x',
        extract env embed_urls x = (o, x') ->
        exists new,
          journal x' = journal x ++ new
          /\ (length (passes new) <= 2)%nat
          /\ (retries (config x) = 0 -> dispatched new `prefix_of` embed_urls)).
Proof.
  intros Hc. split.
  - intros rs x' Hrun.
    destruct (extract_run env _ _ _ _ Hrun) as [(e & _ & He)|(first & x1 & Hfirst & Hcase)];
      [discriminate|].
    destruct (extract_batch_run env _ _ _ _ Hc Hfirst)
      as (Hcfg & _ & new1 & Hj1 & _ & _ & _ & Hret1).
    destruct (Hret1 first eq_refl) as (_ & Hp1 & Hd1 & _).
    rewrite Hcfg in Hcase.
    destruct Hcase as [(Hno & _ & ->)|(Hr & Hne & o2 & Hsecond & Ho)].
    + exists first, x1, new1. split; [exact Hfirst|]. split; [exact Hj1|].
      split; [intros _; now split|].
      intros Hr Hne. destruct Hno as [Hno|Hno]; [lia | contradiction].
    + destruct o2 as [retry|e]; [|discriminate].
      assert (Hc1 : 0 < concurrency (config x1)) by now rewrite Hcfg.
      destruct (extract_batch_run env _ _ _ _ Hc1 Hsecond)
        as (_ & _ & new2 & Hj2 & _ & _ & _ & Hret2).
      destruct (Hret2 retry eq_refl) as (_ & Hp2 & Hd2 & _).
      exists first, x1, (new1 ++ new2). split; [exact Hfirst|].
      split; [rewrite Hj2, Hj1, <- app_assoc; reflexivity|].
      split.
      * intros [Hno|Hno]; [lia | contradiction].
      * intros _ _. rewrite passes_app, dispatched_app, Hp1, Hp2, Hd1, Hd2. now split.
  - intros o x' Hrun.
    destruct (extract_run env _ _ _ _ Hrun) as [(e & Hfirst & _)|(first & x1 & Hfirst & Hcase)].
    + destruct (extract_batch_run env _ _ _ _ Hc Hfirst)
        as (_ & _ & new1 & Hj1 & _ & Hp1 & Hd1 & _).
      exists new1. split; [exact Hj1|].
      split; [apply prefix_length in Hp1; simpl in Hp1; lia | intros _; exact Hd1].
    + destruct (extract_batch_run env _ _ _ _ Hc Hfirst)
        as (Hcfg & _ & new1 & Hj1 & _ & Hp1 & Hd1 & _).
      rewrite Hcfg in Hcase.
      destruct Hcase as [(_ & _ & ->)|(Hr & _ & o2 & Hsecond & _)].
      * exists new1. split; [exact Hj1|].
        split; [apply prefix_length in Hp1; simpl in Hp1; lia | intros _; exact Hd1].
      * assert (Hc1 : 0 < concurrency (config x1)) by now rewrite Hcfg.
        destruct (extract_batch_run env _ _ _ _ Hc1 Hsecond)
          as (_ & _ & new2 & Hj2 & _ & Hp2 & _).
        exists (new1 ++ new2).
        split; [rewrite Hj2, Hj1, <- app_assoc; reflexivity|].
        split; [|lia].
        rewrite passes_app, length_app.
        apply prefix_length in Hp1, Hp2. simpl in Hp1, Hp2. lia.
Qed.

Lemma extract_retries_once_witness :
  exists new,
    journal (snd (extract (browser_with three_pages) three_embeds (init small_config)))
    = new
    /\ (length (passes new) <= 2)%nat.
Proof.
  destruct (extract_retries_once (browser_with three_pages) three_embeds
              (init small_config)) as [_ Hany].
  - reflexivity.
  - destruct (Hany (fst (extract (browser_with three_pages) three_embeds
                           (init small_config)))
                   (snd (extract (browser_with three_pages) three_embeds
                           (init small_config))))
      as (new & Hj & Hp & _).
    + apply surjective_pairing.
    + exists new. split; [exact Hj | exact Hp].
Defined.

(** C1: [extract] returns one entry per input URL, in place.  A retry that
    succeeded stands where the failed entry for its URL stood; an entry
    whose URL was not retried with success is the one of the first pass.
    Nothing is added and nothing is dropped. *)
Theorem extract_keeps_every_entry env embed_urls x :
  0 < concurrency (config x) ->
  (engine_starts env -> pages_behave env -> usable x ->
   exists rs x', extract env embed_urls x = (Returned rs, x'))
  /\ forall rs x',
       extract env embed_urls x = (Returned rs, x') ->
       length rs = length embed_urls
       /\ map embedUrl rs = embed_urls
       /\ exists first x1,
            extract_batch env embed_urls x = (Returned first, x1)
            /\ length first = length embed_urls
            /\ ((rs = first /\ (retries (config x) <= 0 \/ retry_urls_of first = []))
                \/ exists retry_results,
                     extract_batch env (retry_urls_of first) x1
                     = (Returned retry_results, x')
                     /\ length retry_results = length (retry_urls_of first)
                     /\ rs = merge retry_results first
                     /\ forall i r0,
                          first !! i = Some r0 ->
                          exists r,
                            rs !! i = Some r
                            /\ embedUrl r = embedUrl r0
                            /\ ((exists rr, rr ∈ retry_results
                                   /\ embedUrl rr = embedUrl r0 /\ success rr = true) ->
                                r ∈ retry_results /\ success r = true)
                            /\ ((forall rr, rr ∈ retry_results ->
                                   embedUrl rr = embedUrl r0 -> success rr = false) ->
                                r = r0)).
Proof.
  intros Hc. split.
  - intros Hengine Hpages Husable.
    destruct (extract_batch_total env embed_urls x Hc Hengine Hpages Husable)
      as (first & x1 & Hfirst).
    destruct (extract_batch_run env _ _ _ _ Hc Hfirst) as (Hcfg & _ & new & _ & _ & _ & _ & Hret).
    destruct (Hret first eq_refl) as (_ & _ & _ & _ & _ & _ & _ & Hctx).
    unfold extract. unfold bind at 1. rewrite Hfirst. unfold bind at 1, get.
    destruct (0 <? retries (config x1)); [|eexists _, _; reflexivity].
    destruct (filter (fun r => success r = false) first) as [|r0 failed];
      [eexists _, _; reflexivity|].
    unfold bind.
    destruct (extract_batch_total env (map embedUrl (r0 :: failed)) x1)
      as (retry & x2 & ->); auto.
    + now rewrite Hcfg.
    + right. now apply Hctx.
    + eexists _, _. reflexivity.
  - intros rs x' Hrun.
    destruct (extract_run env _ _ _ _ Hrun) as [(e & _ & He)|(first & x1 & Hfirst & Hcase)];
      [discriminate|].
    destruct (extract_batch_run env _ _ _ _ Hc Hfirst)
      as (Hcfg & _ & new1 & _ & _ & _ & _ & Hret1).
    destruct (Hret1 first eq_refl) as (_ & _ & _ & _ & _ & Hrs1 & _).
    pose proof (outcomes_urls env _ _ _ _ Hrs1) as Hurls.
    destruct (outcomes_pointwise _ _ _ Hrs1) as [Hlen _].
    rewrite Hcfg in Hcase.
    destruct Hcase as [(Hno & [= ->] & ->)|(Hr & Hne & o2 & Hsecond & Ho)].
    + split; [exact Hlen|]. split; [exact Hurls|].
      exists first, x1. split; [exact Hfirst|]. split; [exact Hlen|]. left. now split.
    + destruct o2 as [retry|e]; [|discriminate]. injection Ho as ->.
      assert (Hc1 : 0 < concurrency (config x1)) by now rewrite Hcfg.
      destruct (extract_batch_run env _ _ _ _ Hc1 Hsecond)
        as (_ & _ & new2 & _ & _ & _ & _ & Hret2).
      destruct (Hret2 retry eq_refl) as (_ & _ & _ & _ & _ & Hrs2 & _).
      destruct (outcomes_pointwise _ _ _ Hrs2) as [Hlen2 _].
      split; [now rewrite merge_length|].
      split.
      { rewrite merge_map, <- Hurls. apply list_eq. intros i.
        rewrite !list_lookup_fmap. destruct (first !! i); simpl; [|reflexivity].
        now rewrite superseded_url. }
      exists first, x1. split; [exact Hfirst|]. split; [exact Hlen|].
      right. exists retry. split; [exact Hsecond|]. split; [exact Hlen2|].
      split; [reflexivity|].
      intros i r0 Hi. exists (superseded_by retry r0).
      split; [rewrite merge_map, list_lookup_fmap, Hi; reflexivity|].
      split; [apply superseded_url|].
      split.
      * intros (rr & Hin & Hurl & Hs). now apply (superseded_hit retry r0 rr).
      * apply superseded_miss.
Qed.

Lemma extract_keeps_every_entry_witness :
  exists rs x',
    extract (browser_with three_pages) three_embeds (init small_config)
    = (Returned rs, x')
    /\ length rs = length three_embeds.
Proof.
  destruct (extract_keeps_every_entry (browser_with three_pages) three_embeds
              (init small_config)) as [Htotal Hprop].
  - reflexivity.
  - destruct Htotal as (rs & x' & Hrun).
    + apply scenario_engine_starts.
    + apply three_pages_behave.
    + now left.
    + exists rs, x'. split; [exact Hrun|]. apply (Hprop rs x' Hrun).
Defined.

(** ** What an attempt reports *)

(** Which signal ends the wait does not matter to what is found: every
    response up to the closing of the page reaches the handler. *)
Lemma watch_page_all patterns evs : forall w,
  (let '(_, w', rest) := wait_first_completed patterns evs w in
   foldl (late_response patterns) w' rest)
  = foldl (late_response patterns) w evs.
Proof.
  induction evs as [|e evs IH]; intros w; [reflexivity|].
  destruct e as [url| |msg|]; cbn [wait_first_completed foldl late_response];
    try reflexivity.
  destruct (done (m3u8_future (handle_response patterns url w))); [reflexivity|].
  apply IH.
Qed.

Lemma observed_first_match patterns evs : forall w,
  truthy (found_m3u8 w) = false ->
  found_m3u8 w = None ->
  Forall (fun url => url <> "") (responses evs) ->
  found_m3u8 (foldl (late_response patterns) w evs)
  = List.find (matches_any patterns) (responses evs).
Proof.
  induction evs as [|e evs IH]; intros w Ht Hnone Hne; [exact Hnone|].
  destruct e as [url| |msg|];
    try (change (responses (_ :: evs)) with (responses evs) in *;
         cbn [foldl late_response]; apply IH; assumption).
  change (responses (Response url :: evs)) with (url :: responses evs) in *.
  apply Forall_cons in Hne as [Hurl Hne].
  cbn [foldl late_response List.find].
  unfold handle_response. rewrite Ht, scan_patterns_spec.
  destruct (matches_any patterns url) eqn:Hm.
  - rewrite late_responses_found; [reflexivity|]. now apply truthy_nonempty.
  - now apply IH.
Qed.

(** X3: an attempt succeeds exactly when some response observed before the
    page is closed matches a configured pattern, and the manifest URL it
    reports is the first such response, whichever pattern it matched. *)
Theorem attempt_reports_first_match env embed_url context x :
  let b := page_behaviour env (attempts x) in
  let patterns := m3u8_patterns (config x) in
  page_opens b ->
  body_error b = None ->
  Forall (fun url => url <> "") (responses (events b)) ->
  exists r x',
    extract_single env embed_url context x = (Returned r, x')
    /\ m3u8Url r = List.find (matches_any patterns) (responses (events b))
    /\ (success r = true <->
        exists url, url ∈ responses (events b) /\ matches_any patterns url = true)
    /\ (success r = false -> error r = Some not_found).
Proof.
  intros b patterns Hopen Hbody Hne. unfold page_opens in Hopen.
  assert (Hfound : found_m3u8 (watch_page patterns (events b))
                   = List.find (matches_any patterns) (responses (events b))).
  { unfold watch_page. pose proof (watch_page_all patterns (events b) unwatched) as Hall.
    destruct (wait_first_completed patterns (events b) unwatched) as [[sig w'] rest].
    rewrite Hall. now apply observed_first_match. }
  assert (Hiff : truthy (List.find (matches_any patterns) (responses (events b))) = true
                 <-> exists url, url ∈ responses (events b)
                                 /\ matches_any patterns url = true).
  { destruct (List.find (matches_any patterns) (responses (events b))) as [url|] eqn:Hfind.
    - apply List.find_some in Hfind as [Hin Hm]. split.
      + intros _. exists url. split; [now apply list_elem_of_In | exact Hm].
      + intros _. apply truthy_nonempty. rewrite Forall_forall in Hne.
        apply Hne. now apply list_elem_of_In.
    - split; [discriminate|]. intros (url & Hin & Hm).
      apply list_elem_of_In in Hin.
      rewrite (List.find_none _ _ Hfind url Hin) in Hm. discriminate. }
  rewrite extract_single_finish.
  unfold finish_attempt, bind, try_except, update_stats, modify, get, ret, raise.
  simpl. fold b. rewrite Hopen, Hbody. simpl. fold patterns.
  rewrite <- Hfound in Hiff.
  destruct (truthy (found_m3u8 (watch_page patterns (events b)))) eqn:Ht; simpl.
  - eexists _, _. split; [reflexivity|]. simpl.
    split; [exact Hfound|]. split; [|discriminate].
    split; [intros _; now apply Hiff | reflexivity].
  - eexists _, _. split; [reflexivity|]. simpl.
    split.
    { rewrite Hfound in Ht.
      destruct (List.find (matches_any patterns) (responses (events b))) as [u|] eqn:Hf;
        [exfalso | reflexivity].
      apply List.find_some in Hf as [Hin _]. rewrite Forall_forall in Hne.
      rewrite truthy_nonempty in Ht; [discriminate|].
      apply Hne. now apply list_elem_of_In. }
    split; [|reflexivity].
    split; [discriminate|]. intros Hex. apply Hiff in Hex. discriminate.
Qed.

Lemma attempt_reports_first_match_witness :
  exists r x',
    extract_single (browser_with (fun _ => two_manifests_page))
      "https://a.test/embed/1" 0%nat (init default_config) = (Returned r, x')
    /\ m3u8Url r = Some "https://cdn.test/live/master.m3u8".
Proof.
  destruct (attempt_reports_first_match (browser_with (fun _ => two_manifests_page))
              "https://a.test/embed/1" 0%nat (init default_config))
    as (r & x' & Hrun & Hurl & _).
  - reflexivity.
  - reflexivity.
  - repeat constructor; discriminate.
  - exists r, x'. split; [exact Hrun|]. rewrite Hurl. reflexivity.
Defined.

(** ** The default patterns *)

Lemma same_text_lower p : forall m,
  same_text true p m = true <-> lower p = lower m.
Proof.
  induction p as [|a p IH]; intros [|c m]; simpl; split; try discriminate; try reflexivity.
  - intros H. apply andb_true_iff in H as [Hac Hpm].
    apply Ascii.eqb_eq in Hac. apply IH in Hpm. congruence.
  - intros [= Hac Hpm]. apply andb_true_iff. split.
    + now apply Ascii.eqb_eq.
    + now apply IH.
Qed.

Lemma same_text_app ic p1 p2 : forall m,
  same_text ic (p1 ++ p2) m = true ->
  exists m1 m2, m = (m1 ++ m2)%string
                /\ same_text ic p1 m1 = true /\ same_text ic p2 m2 = true.
Proof.
  induction p1 as [|a p1 IH]; intros m Hm.
  - exists "", m. now repeat split.
  - destruct m as [|c m]; [discriminate Hm|]. simpl in Hm.
    apply andb_true_iff in Hm as [Hac Hm].
    destruct (IH m Hm) as (m1 & m2 & -> & H1 & H2).
    exists (String c m1), m2. repeat split; auto. simpl. now rewrite Hac.
Qed.

Lemma string_app_assoc (a b c : string) :
  ((a ++ b) ++ c = a ++ (b ++ c))%string.
Proof.
  induction a as [|x a IH]; [reflexivity|].
  change (String x ((a ++ b) ++ c)%string = String x (a ++ (b ++ c))%string).
  now rewrite IH.
Qed.

Lemma literal_suffix_found prefix suffix url :
  re_search true (literal (prefix ++ suffix)) url = true ->
  re_search true (literal suffix) url = true.
Proof.
  rewrite !re_search_literal. intros (pre & m & rest & -> & Hm).
  destruct (same_text_app true prefix suffix m Hm) as (m1 & m2 & -> & _ & H2).
  exists (pre ++ m1)%string, m2, rest. split; [|exact H2].
  now rewrite !string_app_assoc.
Qed.

(** X2: with the default patterns a URL is taken for a manifest exactly
    when it contains [.m3u8], in any mix of upper and lower case; the
    patterns for [playlist.m3u8] and [index.m3u8] add nothing to the
    third. *)
Theorem default_patterns_find_m3u8 url :
  matches_any (m3u8_patterns default_config) url = true <->
  exists pre m rest, url = (pre ++ m ++ rest)%string /\ lower m = ".m3u8".
Proof.
  assert (Hlast : re_search true (literal ".m3u8") url = true <->
                  exists pre m rest, url = (pre ++ m ++ rest)%string /\ lower m = ".m3u8").
  { rewrite re_search_literal. split; intros (pre & m & rest & Hurl & Hm);
      exists pre, m, rest; (split; [exact Hurl|]).
    - apply same_text_lower in Hm. now rewrite <- Hm.
    - apply same_text_lower. now rewrite Hm. }
  rewrite <- Hlast. unfold matches_any. cbn [m3u8_patterns default_config existsb].
  rewrite orb_false_r. split.
  - intros H. apply orb_true_iff in H as [H|H];
      [exact (literal_suffix_found "playlist" ".m3u8" url H)|].
    apply orb_true_iff in H as [H|H];
      [exact (literal_suffix_found "index" ".m3u8" url H) | exact H].
  - intros H. rewrite H. now rewrite !orb_true_r.
Qed.

Lemma default_patterns_find_m3u8_witness :
  matches_any (m3u8_patterns default_config) "https://cdn.test/LIVE/Master.M3U8?token=1"
  = true.
Proof.
  apply default_patterns_find_m3u8.
  exists "https://cdn.test/LIVE/Master", ".M3U8", "?token=1". split; reflexivity.
Defined.

(** ** A retry never loses a success *)

Lemma superseded_keeps_success rrs r :
  success r = true -> success (superseded_by rrs r) = true.
Proof.
  intros Hs. destruct (superseded_cases rrs r) as [->|[_ Hs']]; assumption.
Qed.

Lemma filter_length_fmap {A} (P Q : A -> Prop) `{!forall x, Decision (P x)}
    `{!forall x, Decision (Q x)} (f : A -> A) (l : list A) :
  (forall x, P x -> Q (f x)) ->
  (length (filter P l) <= length (filter Q (f <$> l)))%nat.
Proof.
  intros Hf. induction l as [|x l IH]; [reflexivity|].
  rewrite fmap_cons, !filter_cons.
  destruct (decide (P x)) as [Hp|Hp].
  - rewrite decide_True by now apply Hf. simpl. lia.
  - destruct (decide (Q (f x))); simpl; lia.
Qed.

(** X8: merging the retry results never turns a success into a failure: an
    entry that had succeeded is a success afterwards, for the same URL, so
    the merged list has at least as many successes as the first pass. *)
Theorem merge_keeps_successes retry_results results :
  (forall i r,
     results !! i = Some r -> success r = true ->
     exists r', merge retry_results results !! i = Some r'
                /\ success r' = true /\ embedUrl r' = embedUrl r)
  /\ (wins results <= wins (merge retry_results results))%nat
  /\ (losses (merge retry_results results) <= losses results)%nat.
Proof.
  split; [|split].
  - intros i r Hi Hs. exists (superseded_by retry_results r).
    rewrite merge_map, list_lookup_fmap, Hi. simpl.
    split; [reflexivity|]. split; [now apply superseded_keeps_success|].
    apply superseded_url.
  - unfold wins. rewrite merge_map. apply filter_length_fmap.
    intros r. apply superseded_keeps_success.
  - assert (Hsum : forall rs, (wins rs + losses rs = length rs)%nat).
    { intros rs. unfold wins, losses. induction rs as [|r rs IH]; [reflexivity|].
      rewrite !filter_cons. destruct (success r) eqn:Hr.
      - rewrite decide_True, decide_False by congruence. simpl in *. lia.
      - rewrite decide_False, decide_True by congruence. simpl in *. lia. }
    pose proof (Hsum results) as H1.
    pose proof (Hsum (merge retry_results results)) as H2.
    rewrite merge_length in H2.
    assert (wins results <= wins (merge retry_results results))%nat; [|lia].
    unfold wins. rewrite merge_map. apply filter_length_fmap.
    intros r. apply superseded_keeps_success.
Qed.

Lemma merge_keeps_successes_witness :
  exists r',
    merge [not_streamed "https://a.test/embed/1" 900%Q]
      [streamed "https://a.test/embed/1" 500%Q] !! 0%nat = Some r'
    /\ success r' = true.
Proof.
  destruct (proj1 (merge_keeps_successes
                     [not_streamed "https://a.test/embed/1" 900%Q]
                     [streamed "https://a.test/embed/1" 500%Q])
              0%nat (streamed "https://a.test/embed/1" 500%Q))
    as (r' & Hr' & Hs & _).
  - reflexivity.
  - reflexivity.
  - exists r'. now split.
Defined.

(** ** Every attempt is recorded once *)

Section Tally.

Variable env : environment.

Lemma finish_attempt_counts n url x r :
  attempt_outcome env (config x) n url = Returned r ->
  stats (snd (finish_attempt env n url x))
  = if success r
    then record_success (time r) (stats x)
    else record_failure (stats x).
Proof.
  unfold attempt_outcome, finish_attempt, bind, try_except, update_stats, modify,
    get, ret, raise.
  simpl.
  destruct (new_page_error (page_behaviour env n)); simpl; [discriminate|].
  destruct (body_error (page_behaviour env n)); simpl.
  { destruct (close_error (page_behaviour env n)); [discriminate|].
    now intros [= <-]. }
  destruct (truthy _); now intros [= <-].
Qed.

Lemma count_fmap {A B} (g : A -> B) (h : B -> bool) (l : list A) :
  length (filter (fun x => h (g x) = true) l)
  = length (filter (fun y => h y = true) (g <$> l)).
Proof.
  induction l as [|x l IH]; [reflexivity|].
  rewrite fmap_cons, !filter_cons.
  destruct (decide (h (g x) = true)); simpl; now rewrite IH.
Qed.

Lemma wins_outcomes (rs : list result) :
  wins rs = length (filter (fun o => won o = true) (Returned <$> rs)).
Proof. unfold wins. now rewrite <- count_fmap. Qed.

Lemma losses_outcomes (rs : list result) :
  losses rs = length (filter (fun o => lost o = true) (Returned <$> rs)).
Proof.
  unfold losses. rewrite <- count_fmap. induction rs as [|r rs IH]; [reflexivity|].
  rewrite !filter_cons.
  destruct (decide (success r = false)) as [Hr|Hr],
           (decide (lost (Returned r) = true)) as [Hl|Hl]; simpl in *.
  - now rewrite IH.
  - rewrite Hr in Hl. now contradiction Hl.
  - destruct (success r); [discriminate Hl | now contradiction Hr].
  - exact IH.
Qed.

Lemma wins_app rs1 rs2 : wins (rs1 ++ rs2) = (wins rs1 + wins rs2)%nat.
Proof. unfold wins. now rewrite filter_app, length_app. Qed.

Lemma losses_app rs1 rs2 : losses (rs1 ++ rs2) = (losses rs1 + losses rs2)%nat.
Proof. unfold losses. now rewrite filter_app, length_app. Qed.

Lemma wins_losses rs : (wins rs + losses rs = length rs)%nat.
Proof.
  unfold wins, losses. induction rs as [|r rs IH]; [reflexivity|].
  rewrite !filter_cons. destruct (success r) eqn:Hr.
  - rewrite decide_True, decide_False by congruence. simpl in *. lia.
  - rewrite decide_False, decide_True by congruence. simpl in *. lia.
Qed.

Lemma complete_all_counts order : forall slots x s x',
  complete_all env order slots x = (Returned s, x') ->
  successful (stats x')
  = (successful (stats x)
     + length (filter (fun t => won (attempt_outcome env (config x)
                                       (fst (snd t)) (snd (snd t))) = true) order))%nat
  /\ failed (stats x')
     = (failed (stats x)
        + length (filter (fun t => lost (attempt_outcome env (config x)
                                           (fst (snd t)) (snd (snd t))) = true) order))%nat.
Proof.
  induction order as [|[idx [n url]] order IH]; intros slots x s x' Hrun.
  - injection Hrun as <- <-. simpl. split; lia.
  - cbn [complete_all] in Hrun. unfold bind at 1 in Hrun.
    destruct (finish_attempt_run env n url x) as (x1 & Hfin & Hpool & _).
    rewrite Hfin in Hrun.
    destruct (attempt_outcome env (config x) n url) as [r|e] eqn:Hout;
      [|discriminate].
    pose proof (finish_attempt_counts n url x r Hout) as Hstats.
    rewrite Hfin in Hstats. simpl in Hstats.
    destruct (IH _ _ _ _ Hrun) as [Hs Hf].
    replace (config x1) with (config x) in Hs, Hf by (symmetry; apply Hpool).
    rewrite Hs, Hf, Hstats, !filter_cons. cbn [fst snd]. rewrite Hout. simpl.
    destruct (success r); simpl; split; lia.
Qed.

Lemma gather_counts tasks x rs x' :
  gather env tasks x = (Returned rs, x') ->
  successful (stats x') = (successful (stats x) + wins rs)%nat
  /\ failed (stats x') = (failed (stats x) + losses rs)%nat.
Proof.
  intros Hrun.
  destruct (gather_run env _ _ _ _ Hrun) as (_ & _ & _ & fs & _ & _ & _ & Hret).
  destruct (Hret rs eq_refl) as [_ Hrs]. clear Hret fs.
  unfold gather, bind in Hrun.
  destruct (start_all_run tasks x) as (x1 & Hstart & Hpool & Hstats & _).
  rewrite Hstart in Hrun.
  set (started := imap (fun j t => ((attempts x + j)%nat, fst t)) tasks) in *.
  set (order := merge_sort (earlier env) (imap (fun i t => (i, t)) started)) in *.
  assert (Hperm : order ≡ₚ imap (fun i t => (i, t)) started)
    by apply merge_sort_Permutation.
  destruct (complete_all env order (replicate (length tasks) None) x1) as [[s|e] x2] eqn:Hall;
    [|discriminate].
  injection Hrun as _ <-.
  destruct (complete_all_counts _ _ _ _ _ Hall) as [Hs Hf].
  replace (config x1) with (config x) in Hs, Hf by (symmetry; apply Hpool).
  rewrite Hstats in Hs, Hf.
  assert (Hout : (fun t : nat * (nat * string) =>
                    attempt_outcome env (config x) (fst (snd t)) (snd (snd t)))
                 <$> imap (fun i t => (i, t)) started
                 = Returned <$> rs).
  { rewrite Hrs. apply list_eq. intros i. unfold started.
    rewrite list_lookup_fmap, !list_lookup_imap. now destruct (tasks !! i). }
  rewrite Hs, Hf, wins_outcomes, losses_outcomes, <- Hout.
  rewrite <- !count_fmap.
  split; f_equal; apply Permutation_length; now rewrite Hperm.
Qed.

Lemma batch_loop_counts embed_urls starts : forall results x rs x',
  batch_loop env embed_urls starts results x = (Returned rs, x') ->
  exists more,
    rs = results ++ more
    /\ successful (stats x') = (successful (stats x) + wins more)%nat
    /\ failed (stats x') = (failed (stats x) + losses more)%nat.
Proof.
  induction starts as [|k starts IH]; intros results x rs x' Hrun.
  - injection Hrun as <- <-. exists []. rewrite app_nil_r. simpl.
    repeat split; unfold wins, losses; simpl; lia.
  - cbn [batch_loop] in Hrun. unfold bind at 1, get in Hrun. unfold bind at 1 in Hrun.
    destruct (make_tasks 0 _ x) as [[tasks|e] x0] eqn:Htasks; [|discriminate].
    destruct (make_tasks_run _ _ _ _ _ Htasks) as [-> _].
    unfold bind at 1 in Hrun.
    destruct (gather env tasks x) as [[brs|e] x1] eqn:Hgather; [|discriminate].
    destruct (gather_counts _ _ _ _ Hgather) as [Hs Hf].
    destruct (IH _ _ _ _ Hrun) as (more & -> & Hs' & Hf').
    exists (brs ++ more). rewrite app_assoc, wins_app, losses_app.
    repeat split; lia.
Qed.

Lemma extract_batch_counts embed_urls x rs x' :
  extract_batch env embed_urls x = (Returned rs, x') ->
  successful (stats x') = (successful (stats x) + wins rs)%nat
  /\ failed (stats x') = (failed (stats x) + losses rs)%nat.
Proof.
  unfold extract_batch. unfold bind at 1, get. unfold bind at 1.
  intros Hrun.
  assert (Hrest : exists x0, stats x0 = stats x /\
    (modify (record (Pass embed_urls));;
     x <- get;;
     starts <- lift (range 0 (Z.of_nat (length embed_urls)) (concurrency (config x)));;
     batch_loop env embed_urls starts []) x0 = (Returned rs, x')).
  { destruct (browser x) as [[]|].
    - exists x. split; [reflexivity | exact Hrun].
    - destruct (initialize env x) as [[[]|e] x0] eqn:Hinit; [|discriminate].
      destruct (initialize_run env _ _ _ Hinit) as (_ & Hstats & _).
      exists x0. split; [exact Hstats | exact Hrun]. }
  destruct Hrest as (x0 & Hstats & Hrest).
  unfold bind at 1, modify in Hrest. unfold bind at 1, get in Hrest.
  unfold bind at 1, lift in Hrest.
  destruct (range 0 _ _) as [starts|e]; [|discriminate].
  destruct (batch_loop_counts _ _ _ _ _ _ Hrest) as (more & -> & Hs & Hf).
  simpl in Hs, Hf. rewrite Hstats in Hs, Hf. now split.
Qed.









End Tally.



Lemma merge_losses_le retry_results results :
  (losses (merge retry_results results) <= losses results)%nat.
Proof.
  pose proof (wins_losses results) as H1.
  pose proof (wins_losses (merge retry_results results)) as H2.
  rewrite merge_length in H2.
  assert (wins results <= wins (merge retry_results results))%nat; [|lia].
  unfold wins. rewrite merge_map. apply filter_length_fmap.
  intros r. apply superseded_keeps_success.
Qed.

(** X7: the statistics of a returning [extract] count both passes: an
    embed that fails and is retried is recorded once for each of its two
    attempts, so the failed count grows by the failures of the first pass
    plus those of the retry pass, and is never below the number of failures
    in the returned list. *)
Theorem extract_records_both_passes env embed_urls x rs x' :
  extract env embed_urls x = (Returned rs, x') ->
  exists first retry_results x1,
    extract_batch env embed_urls x = (Returned first, x1)
    /\ ((retry_results = [] /\ rs = first /\ x' = x1)
        \/ (extract_batch env (retry_urls_of first) x1 = (Returned retry_results, x')
            /\ rs = merge retry_results first))
    /\ successful (stats x')
       = (successful (stats x) + wins first + wins retry_results)%nat
    /\ failed (stats x')
       = (failed (stats x) + losses first + losses retry_results)%nat
    /\ (losses rs <= losses first)%nat
    /\ (failed (stats x) + losses rs <= failed (stats x'))%nat.
Proof.
  intros Hrun.
  destruct (extract_run env _ _ _ _ Hrun) as [(e & _ & He)|(first & x1 & Hfirst & Hcase)];
    [discriminate|].
  destruct (extract_batch_counts env _ _ _ _ Hfirst) as [Hs1 Hf1].
  destruct Hcase as [(_ & [= ->] & ->)|(_ & _ & o2 & Hsecond & Ho)].
  - exists first, [], x1. split; [exact Hfirst|]. split; [left; now repeat split|].
    unfold wins at 2, losses at 2. simpl. repeat split; lia.
  - destruct o2 as [retry|e]; [|discriminate]. injection Ho as ->.
    destruct (extract_batch_counts env _ _ _ _ Hsecond) as [Hs2 Hf2].
    pose proof (merge_losses_le retry first) as Hle.
    exists first, retry, x1. split; [exact Hfirst|]. split; [right; now split|].
    repeat split; lia.
Qed.

Lemma extract_records_both_passes_witness :
  (failed (stats (init small_config))
   + losses [streamed "https://a.test/embed/1" 500%Q;
             streamed "https://a.test/embed/2" 500%Q;
             not_streamed "https://b.test/embed/3" 40%Q]
   <= failed (stats (snd (extract (browser_with three_pages) three_embeds
                            (init small_config)))))%nat.
Proof.
  destruct (extract_records_both_passes (browser_with three_pages) three_embeds
              (init small_config)
              [streamed "https://a.test/embed/1" 500%Q;
               streamed "https://a.test/embed/2" 500%Q;
               not_streamed "https://b.test/embed/3" 40%Q]
              (snd (extract (browser_with three_pages) three_embeds
                      (init small_config))))
    as (first & retry & x1 & _ & _ & _ & _ & _ & Hle).
  - vm_compute. reflexivity.
  - exact Hle.
Defined.

(** ** The pool is created once *)

Section Pool.

Variable env : environment.

Lemma new_contexts_any ids : forall x,
  playwright (snd (new_contexts env ids x)) = playwright x
  /\ browser (snd (new_contexts env ids x)) = browser x.
Proof.
  induction ids as [|i ids IH]; intros x; [now split|].
  cbn [new_contexts]. destruct (new_context_error env i); [now split|].
  unfold bind, modify.
  exact (IH (record (ContextOpened i) (set_contexts (contexts x ++ [i]) x))).
Qed.

Lemma new_contexts_returned ids : forall x x',
  new_contexts env ids x = (Returned tt, x') ->
  journal x' = journal x ++ map ContextOpened ids
  /\ contexts x' = contexts x ++ ids.
Proof.
  induction ids as [|i ids IH]; intros x x' Hrun.
  - injection Hrun as <-. now rewrite !app_nil_r.
  - cbn [new_contexts] in Hrun. destruct (new_context_error env i); [discriminate|].
    unfold bind at 1, modify in Hrun.
    destruct (IH _ _ Hrun) as [Hj Hc]. rewrite Hj, Hc. simpl.
    now rewrite <- !app_assoc.
Qed.

Lemma initialize_returned x x' :
  initialize env x = (Returned tt, x') ->
  journal x' = journal x
               ++ Launched :: map ContextOpened (seq 0 (Z.to_nat (concurrency (config x))))
  /\ contexts x' = contexts x ++ seq 0 (Z.to_nat (concurrency (config x)))
  /\ browser x' = Some tt.
Proof.
  unfold initialize. intros Hrun.
  destruct (start_error env); [discriminate|].
  unfold bind at 1, modify in Hrun.
  destruct (launch_error env); [discriminate|].
  unfold bind at 1, modify in Hrun. unfold bind at 1, get in Hrun.
  destruct (new_contexts_returned _ _ _ Hrun) as [Hj Hc].
  pose proof (new_contexts_any (seq 0 (Z.to_nat (concurrency (config x))))
                (record Launched (set_browser (Some tt) (set_playwright (Some true) x))))
    as [_ Hb].
  simpl in *. rewrite Hrun in Hb. simpl in Hb.
  rewrite Hj, Hc, <- app_assoc. now repeat split.
Qed.

Lemma attempt_entries_quiet l :
  Forall (fun e => is_started e \/ is_finished e) l ->
  launches l = 0%nat /\ opened l = [].
Proof.
  induction 1 as [|e l He _ [IH1 IH2]]; [now split|].
  destruct e; destruct He as [He|He]; try contradiction; now split.
Qed.

Lemma blocks_quiet gs blocks :
  Forall2 group_block gs blocks ->
  launches (concat blocks) = 0%nat /\ opened (concat blocks) = [].
Proof.
  intros H. apply attempt_entries_quiet.
  induction H as [|g blk gs blocks (ss & fs & -> & Hss & Hfs & _) _ IH]; [constructor|].
  simpl. rewrite !Forall_app. repeat split; [| |exact IH].
  - eapply Forall_impl; [exact Hss|]. now left.
  - eapply Forall_impl; [exact Hfs|]. now right.
Qed.

Lemma launches_app j1 j2 : launches (j1 ++ j2) = (launches j1 + launches j2)%nat.
Proof. unfold launches. now rewrite omap_app, length_app. Qed.

Lemma opened_app j1 j2 : opened (j1 ++ j2) = opened j1 ++ opened j2.
Proof. apply omap_app. Qed.

Lemma opened_contexts ids : opened (map ContextOpened ids) = ids /\ launches (map ContextOpened ids) = 0%nat.
Proof.
  induction ids as [|i ids [IH1 IH2]]; [now split|].
  split; [simpl; now rewrite IH1 | exact IH2].
Qed.

(** What a returning pass does to the pool: it creates it when there is no
    browser, and leaves it alone otherwise. *)
Lemma extract_batch_pool embed_urls x rs x' :
  0 < concurrency (config x) ->
  extract_batch env embed_urls x = (Returned rs, x') ->
  let created :=
    match browser x with
    | None => seq 0 (Z.to_nat (concurrency (config x)))
    | Some _ => []
    end in
  exists new,
    journal x' = journal x ++ new
    /\ launches new = (match browser x with None => 1 | Some _ => 0 end)%nat
    /\ opened new = created
    /\ contexts x' = contexts x ++ created
    /\ browser x' = Some tt
    /\ config x' = config x.
Proof.
  intros Hc Hrun created. unfold extract_batch in Hrun.
  unfold bind at 1, get in Hrun. unfold bind at 1 in Hrun.
  destruct (browser x) as [[]|] eqn:Hb.
  - unfold ret in Hrun.
    destruct (pass_run env _ _ _ _ Hc Hrun) as (Hpool & _ & new & Hj & _ & _ & _ & Hret).
    destruct (Hret rs eq_refl) as (_ & _ & (blocks & -> & Hblocks) & _).
    destruct (blocks_quiet _ _ Hblocks) as [Hl Ho].
    destruct Hpool as (Hcfg & _ & Hbx & Hcx).
    exists (Pass embed_urls :: concat blocks).
    split; [exact Hj|]. split; [exact Hl|]. split; [exact Ho|].
    subst created. rewrite app_nil_r.
    split; [exact Hcx|]. split; [congruence | exact Hcfg].
  - destruct (initialize env x) as [[[]|e] x0] eqn:Hinit; [|discriminate].
    destruct (initialize_returned _ _ Hinit) as (Hj0 & Hc0 & Hb0).
    destruct (initialize_run env _ _ _ Hinit) as (Hcfg0 & _).
    assert (Hc' : 0 < concurrency (config x0)) by now rewrite Hcfg0.
    destruct (pass_run env _ _ _ _ Hc' Hrun) as (Hpool & _ & new & Hj & _ & _ & _ & Hret).
    destruct (Hret rs eq_refl) as (_ & _ & (blocks & -> & Hblocks) & _).
    destruct (blocks_quiet _ _ Hblocks) as [Hl Ho].
    destruct Hpool as (Hcfg & _ & Hbx & Hcx).
    destruct (opened_contexts (seq 0 (Z.to_nat (concurrency (config x))))) as [Ho' Hl'].
    exists ((Launched :: map ContextOpened (seq 0 (Z.to_nat (concurrency (config x)))))
            ++ Pass embed_urls :: concat blocks).
    split; [rewrite Hj, Hj0, <- app_assoc; reflexivity|].
    split.
    { rewrite launches_app. change (launches (Pass embed_urls :: concat blocks))
        with (launches (concat blocks)). rewrite Hl.
      change (launches (Launched :: ?l)) with (S (launches l)).
      change (launches (Launched :: map ContextOpened (seq 0 (Z.to_nat (concurrency (config x))))))
        with (S (launches (map ContextOpened (seq 0 (Z.to_nat (concurrency (config x))))))).
      rewrite Hl'. reflexivity. }
    split.
    { rewrite opened_app. change (opened (Pass embed_urls :: concat blocks))
        with (opened (concat blocks)). rewrite Ho, app_nil_r.
      change (opened (Launched :: map ContextOpened (seq 0 (Z.to_nat (concurrency (config x))))))
        with (opened (map ContextOpened (seq 0 (Z.to_nat (concurrency (config x)))))).
      exact Ho'. }
    split; [rewrite Hcx, Hc0; reflexivity|].
    split; [congruence | congruence].
Qed.

End Pool.

(** X9: a returning [extract] launches the browser and opens its
    [concurrency] contexts only when the extractor has no browser yet; the
    retry pass, and a call on an extractor that already has a pool, reuse
    the pool they find. *)
Theorem extract_creates_pool_once env embed_urls x rs x' :
  0 < concurrency (config x) ->
  extract env embed_urls x = (Returned rs, x') ->
  let created :=
    match browser x with
    | None => seq 0 (Z.to_nat (concurrency (config x)))
    | Some _ => []
    end in
  exists new,
    journal x' = journal x ++ new
    /\ launches new = (match browser x with None => 1 | Some _ => 0 end)%nat
    /\ opened new = created
    /\ contexts x' = contexts x ++ created
    /\ browser x' = Some tt.
Proof.
  intros Hc Hrun created.
  destruct (extract_run env _ _ _ _ Hrun) as [(e & _ & He)|(first & x1 & Hfirst & Hcase)];
    [discriminate|].
  destruct (extract_batch_pool env _ _ _ _ Hc Hfirst)
    as (new1 & Hj1 & Hl1 & Ho1 & Hc1 & Hb1 & Hcfg1).
  destruct Hcase as [(_ & _ & ->)|(_ & _ & o2 & Hsecond & Ho)].
  - exists new1. now repeat split.
  - destruct o2 as [retry|e]; [|discriminate].
    assert (Hc' : 0 < concurrency (config x1)) by now rewrite Hcfg1.
    destruct (extract_batch_pool env _ _ _ _ Hc' Hsecond)
      as (new2 & Hj2 & Hl2 & Ho2 & Hc2 & Hb2 & _).
    rewrite Hb1 in Hl2, Ho2, Hc2. rewrite app_nil_r in Hc2.
    exists (new1 ++ new2).
    split; [rewrite Hj2, Hj1, <- app_assoc; reflexivity|].
    split; [rewrite launches_app, Hl1, Hl2; lia|].
    split; [rewrite opened_app, Ho1, Ho2, app_nil_r; reflexivity|].
    split; [rewrite Hc2, Hc1; reflexivity | exact Hb2].
Qed.

Lemma extract_creates_pool_once_witness :
  exists new,
    journal (snd (extract (browser_with three_pages) three_embeds (init small_config)))
    = journal (init small_config) ++ new
    /\ launches new = 1%nat.
Proof.
  destruct (extract_creates_pool_once (browser_with three_pages) three_embeds
              (init small_config)
              [streamed "https://a.test/embed/1" 500%Q;
               streamed "https://a.test/embed/2" 500%Q;
               not_streamed "https://b.test/embed/3" 40%Q]
              (snd (extract (browser_with three_pages) three_embeds
                      (init small_config))))
    as (new & Hj & Hl & _).
  - reflexivity.
  - vm_compute. reflexivity.
  - exists new. split; [exact Hj | exact Hl].
Defined.

(** ** A pool that could not be filled *)

Lemma slice_first {A} (u : A) (l : list A) (c : Z) :
  0 < c -> exists rest, slice (u :: l) 0 (0 + c) = u :: rest.
Proof.
  intros Hc. rewrite slice_forward by lia. simpl.
  destruct (Z.to_nat c) as [|n] eqn:Hn; [lia|]. simpl. eauto.
Qed.

Lemma range_up_first stop step :
  0 < stop -> exists rest, range_up (Z.to_nat stop) 0 stop step = 0 :: rest.
Proof.
  intros Hs. destruct (Z.to_nat stop) as [|n] eqn:Hn; [lia|]. simpl.
  destruct (Z.ltb_spec 0 stop); [eauto | lia].
Qed.

Lemma initialize_first_context_fails env x e :
  0 < concurrency (config x) ->
  start_error env = None ->
  launch_error env = None ->
  new_context_error env 0%nat = Some e ->
  initialize env x
  = (Raised (PlaywrightError e),
     record Launched (set_browser (Some tt) (set_playwright (Some true) x))).
Proof.
  intros Hc Hstart Hlaunch Hctx. unfold initialize. rewrite Hstart.
  unfold bind at 1, modify. rewrite Hlaunch.
  unfold bind at 1, modify. unfold bind at 1, get.
  change (config (record Launched (set_browser (Some tt) (set_playwright (Some true) x))))
    with (config x).
  destruct (Z.to_nat (concurrency (config x))) as [|n] eqn:Hn; [lia|].
  cbn [seq new_contexts]. now rewrite Hctx.
Qed.

Lemma pass_without_contexts env later x :
  0 < concurrency (config x) ->
  later <> [] -> browser x = Some tt -> contexts x = [] ->
  extract env later x
  = (Raised (ZeroDivisionError "integer modulo by zero"), record (Pass later) x).
Proof.
  intros Hc Hne Hb Hctx. destruct later as [|u later]; [contradiction|].
  destruct (range_up_first (Z.of_nat (length (u :: later))) (concurrency (config x)))
    as [rest Hrange]; [simpl; lia|].
  destruct (slice_first u later (concurrency (config x)) Hc) as [more Hslice].
  unfold extract, extract_batch. unfold bind at 1. unfold bind at 1, get.
  unfold bind at 1. rewrite Hb. unfold ret at 1.
  unfold bind at 1, modify. unfold bind at 1, get. unfold bind at 1, lift.
  change (config (record (Pass (u :: later)) x)) with (config x).
  rewrite (range_forward _ _ Hc), Hrange.
  cbn [batch_loop]. unfold bind at 1, get. unfold bind at 1.
  change (config (record (Pass (u :: later)) x)) with (config x).
  rewrite Hslice. cbn [make_tasks]. unfold bind at 1, get.
  change (contexts (record (Pass (u :: later)) x)) with (contexts x).
  rewrite Hctx. reflexivity.
Qed.

(** X10: when the browser launches but its first context cannot be
    opened, [extract] raises that error and leaves an extractor that has a
    browser and no context.  It never initializes again: every later
    [extract] of a non-empty list raises ZeroDivisionError before any
    attempt is dispatched. *)
Theorem failed_pool_is_never_rebuilt env cfg embed_urls e :
  0 < concurrency cfg ->
  start_error env = None ->
  launch_error env = None ->
  new_context_error env 0%nat = Some e ->
  exists x1,
    extract env embed_urls (init cfg) = (Raised (PlaywrightError e), x1)
    /\ browser x1 = Some tt /\ contexts x1 = [] /\ attempts x1 = 0%nat
    /\ forall later,
         later <> [] ->
         exists x2,
           extract env later x1
           = (Raised (ZeroDivisionError "integer modulo by zero"), x2)
           /\ browser x2 = Some tt /\ contexts x2 = [] /\ attempts x2 = 0%nat
           /\ journal x2 = journal x1 ++ [Pass later].
Proof.
  intros Hc Hstart Hlaunch Hctx.
  exists (record Launched (set_browser (Some tt) (set_playwright (Some true) (init cfg)))).
  split.
  { unfold extract, extract_batch. unfold bind at 1. unfold bind at 1, get.
    unfold bind at 1. cbn [browser init].
    now rewrite (initialize_first_context_fails env (init cfg) e Hc Hstart Hlaunch Hctx). }
  split; [reflexivity|]. split; [reflexivity|]. split; [reflexivity|].
  intros later Hne. eexists. split.
  { apply pass_without_contexts; auto. }
  now repeat split.
Qed.

Lemma failed_pool_is_never_rebuilt_witness :
  exists x1,
    extract contextless_browser three_embeds (init small_config)
    = (Raised (PlaywrightError "Target closed"), x1)
    /\ browser x1 = Some tt /\ contexts x1 = [].
Proof.
  destruct (failed_pool_is_never_rebuilt contextless_browser small_config three_embeds
              "Target closed")
    as (x1 & Hrun & Hb & Hc & _).
  - reflexivity.
  - reflexivity.
  - reflexivity.
  - reflexivity.
  - exists x1. now repeat split.
Defined.

(** ** Degenerate inputs and configurations *)

Lemma range_backward stop step :
  0 <= stop -> step < 0 -> range 0 stop step = Returned [].
Proof.
  intros Hs Hstep. unfold range.
  destruct (Z.eqb_spec step 0); [lia|]. destruct (Z.ltb_spec 0 step); [lia|].
  replace (Z.to_nat (0 - stop)) with 0%nat by lia. reflexivity.
Qed.

Lemma range_empty step : step <> 0 -> range 0 0 step = Returned [].
Proof.
  intros Hstep. unfold range. destruct (Z.eqb_spec step 0); [contradiction|].
  now destruct (0 <? step).
Qed.

(** [extract] on a new extractor whose pass dispatches nothing. *)
Lemma extract_idle env cfg embed_urls (o : outcome (list result)) :
  engine_starts env ->
  range 0 (Z.of_nat (length embed_urls)) (concurrency cfg)
  = match o with Returned _ => Returned (@nil Z) | Raised e => Raised e end ->
  exists x',
    extract env embed_urls (init cfg)
    = (match o with Returned _ => Returned (@nil result) | Raised e => Raised e end, x')
    /\ browser x' = Some tt
    /\ contexts x' = seq 0 (Z.to_nat (concurrency cfg))
    /\ attempts x' = 0%nat
    /\ dispatched (journal x') = [].
Proof.
  intros Hengine Hrange.
  destruct (initialize_total env (init cfg) Hengine) as [x0 Hinit].
  destruct (initialize_run env _ _ _ Hinit) as (Hcfg & _ & Hatt & pool & Hj & Hpool & _).
  destruct (initialize_returned env _ _ Hinit) as (_ & Hctx & Hb).
  destruct (pool_entries_quiet pool Hpool) as (_ & _ & Hd).
  exists (record (Pass embed_urls) x0).
  split.
  { unfold extract, extract_batch. unfold bind at 1. unfold bind at 1, get.
    unfold bind at 1. cbn [browser init]. rewrite Hinit.
    unfold bind at 1, modify. unfold bind at 1, get. unfold bind at 1, lift.
    change (config (record (Pass embed_urls) x0)) with (config x0).
    rewrite Hcfg. cbn [config init]. rewrite Hrange.
    destruct o as [a|e]; [|reflexivity].
    cbn [batch_loop]. unfold ret at 1. unfold bind at 1, get.
    destruct (0 <? retries (config (record (Pass embed_urls) x0))); reflexivity. }
  cbn [browser contexts attempts journal record].
  split; [exact Hb|]. split; [exact Hctx|]. split; [exact Hatt|].
  rewrite Hj, !dispatched_app, Hd. reflexivity.
Qed.

(** X5: what [extract] does on a new extractor when there is nothing to
    dispatch.  An empty list is answered with an empty list, after the
    browser has been launched all the same.  With [concurrency = 0] the
    call raises ValueError (the step of the [range]) for every input, the
    empty one included.  With a negative [concurrency] it returns an empty
    list for every input: the URLs are dropped without an attempt. *)
Theorem extract_without_dispatch env cfg embed_urls :
  engine_starts env ->
  (concurrency cfg <> 0 -> embed_urls = [] ->
   exists x',
     extract env embed_urls (init cfg) = (Returned [], x')
     /\ browser x' = Some tt /\ attempts x' = 0%nat)
  /\ (concurrency cfg = 0 ->
      exists x',
        extract env embed_urls (init cfg)
        = (Raised (ValueError "range() arg 3 must not be zero"), x')
        /\ browser x' = Some tt /\ contexts x' = [] /\ attempts x' = 0%nat)
  /\ (concurrency cfg < 0 ->
      exists x',
        extract env embed_urls (init cfg) = (Returned [], x')
        /\ browser x' = Some tt /\ contexts x' = [] /\ attempts x' = 0%nat
        /\ dispatched (journal x') = []).
Proof.
  intros Hengine. split; [|split].
  - intros Hc ->.
    destruct (extract_idle env cfg [] (Returned []) Hengine) as (x' & Hrun & Hb & _ & Ha & _).
    { now apply range_empty. }
    exists x'. now repeat split.
  - intros Hc.
    destruct (extract_idle env cfg embed_urls
                (Raised (ValueError "range() arg 3 must not be zero")) Hengine)
      as (x' & Hrun & Hb & Hctx & Ha & _).
    { unfold range. now rewrite Hc. }
    exists x'. rewrite Hc in Hctx. now repeat split.
  - intros Hc.
    destruct (extract_idle env cfg embed_urls (Returned []) Hengine)
      as (x' & Hrun & Hb & Hctx & Ha & Hd).
    { apply range_backward; lia. }
    exists x'. replace (Z.to_nat (concurrency cfg)) with 0%nat in Hctx by lia.
    now repeat split.
Qed.

Lemma extract_without_dispatch_witness :
  exists x',
    extract (browser_with three_pages) three_embeds (init backwards_config)
    = (Returned [], x')
    /\ attempts x' = 0%nat.
Proof.
  destruct (extract_without_dispatch (browser_with three_pages) backwards_config
              three_embeds (scenario_engine_starts three_pages))
    as (_ & _ & Hneg).
  destruct Hneg as (x' & Hrun & _ & _ & Ha & _); [reflexivity|].
  exists x'. now split.
Defined.

(** ** Contexts are handed out round-robin *)

(** X4: inside a group the task at position [idx] is bound to the context
    at [idx % len(self.contexts)].  When the group is no larger than a pool
    of distinct contexts, no two of its attempts share a context; two
    positions that agree modulo the size of the pool always share one. *)
Theorem tasks_bound_round_robin batch x tasks x' :
  make_tasks 0 batch x = (Returned tasks, x') ->
  x' = x
  /\ map fst tasks = batch
  /\ (forall j t, tasks !! j = Some t ->
        contexts x !! (j mod length (contexts x))%nat = Some (snd t))
  /\ ((length batch <= length (contexts x))%nat -> NoDup (contexts x) ->
      map snd tasks = take (length batch) (contexts x) /\ NoDup (map snd tasks))
  /\ (forall i j ti tj,
        tasks !! i = Some ti -> tasks !! j = Some tj ->
        (i mod length (contexts x) = j mod length (contexts x))%nat ->
        snd ti = snd tj).
Proof.
  intros Hrun. destruct (make_tasks_run _ _ _ _ _ Hrun) as [-> Hret].
  destruct (Hret tasks eq_refl) as [Hurls Hbound].
  assert (Hb : forall j t, tasks !! j = Some t ->
            contexts x !! (j mod length (contexts x))%nat = Some (snd t)).
  { intros j t Hj. exact (Hbound j t Hj). }
  assert (Hlen : length tasks = length batch) by (rewrite <- Hurls; now rewrite length_map).
  split; [reflexivity|]. split; [exact Hurls|]. split; [exact Hb|]. split.
  - intros Hle Hnd.
    assert (Heq : map snd tasks = take (length batch) (contexts x)).
    { apply list_eq. intros j. rewrite list_lookup_fmap.
      destruct (tasks !! j) as [t|] eqn:Hj; simpl.
      - pose proof (lookup_lt_Some _ _ _ Hj) as Hlt.
        rewrite lookup_take_lt by lia. rewrite <- (Hb j t Hj).
        now rewrite Nat.mod_small by lia.
      - apply lookup_ge_None in Hj. symmetry. apply lookup_take_ge. lia. }
    split; [exact Heq|]. rewrite Heq.
    exact (sublist_NoDup _ _ Hnd (sublist_take _ _)).
  - intros i j ti tj Hi Hj Hmod.
    pose proof (Hb i ti Hi) as H1. pose proof (Hb j tj Hj) as H2.
    rewrite Hmod in H1. congruence.
Qed.

Lemma tasks_bound_round_robin_witness :
  NoDup (map snd [("https://a.test/embed/1", 0%nat); ("https://a.test/embed/2", 1%nat)]).
Proof.
  destruct (tasks_bound_round_robin
              ["https://a.test/embed/1"; "https://a.test/embed/2"]
              (set_contexts [0%nat; 1%nat] (init small_config))
              [("https://a.test/embed/1", 0%nat); ("https://a.test/embed/2", 1%nat)]
              (set_contexts [0%nat; 1%nat] (init small_config)))
    as (_ & _ & _ & Hdistinct & _).
  - reflexivity.
  - apply Hdistinct.
    + simpl. lia.
    + exact (NoDup_seq 0 2).
Defined.

(** ** Teardown, and what comes after it *)

Section Teardown.

Variable env : environment.

Lemma close_running x :
  playwright x = Some true ->
  exists x',
    close env x = (Returned tt, x')
    /\ contexts x' = [] /\ browser x' = None /\ playwright x' = Some false
    /\ stats x' = stats x /\ config x' = config x /\ attempts x' = attempts x
    /\ journal x' = journal x ++ map ContextClosed (contexts x)
                      ++ match browser x with
                         | Some _ => [BrowserClosed]
                         | None => []
                         end ++ [DriverStopped].
Proof.
  intros Hpw. unfold close. unfold bind at 1, get. unfold bind at 1.
  destruct (close_contexts_run (contexts x) x) as (x1 & Hrun & Hpool & Hstats & Hj).
  rewrite Hrun, Hpw. destruct Hpool as (Hcfg & _ & _ & _).
  assert (Hatt : forall cs y, attempts (snd (close_contexts cs y)) = attempts y).
  { induction cs as [|c cs IH]; intros y; [reflexivity|].
    cbn [close_contexts]. unfold bind, modify.
    exact (IH (record (ContextClosed c) y)). }
  pose proof (Hatt (contexts x) x) as Ha. rewrite Hrun in Ha. simpl in Ha.
  destruct (browser x); unfold bind, modify, ret; simpl;
    eexists; (split; [reflexivity|]); simpl; repeat split; auto;
    rewrite Hj, <- !app_assoc; reflexivity.
Qed.

End Teardown.

(** X11: on an extractor whose driver is running, [close] closes every
    context in order, then the browser, then stops the driver, and empties
    the pool; the statistics and the configuration are left as they were.
    The extractor can then be used again: the next pass launches a browser
    and opens [concurrency] contexts afresh. *)
Theorem close_then_extract_again env x :
  playwright x = Some true ->
  exists x',
    close env x = (Returned tt, x')
    /\ contexts x' = [] /\ browser x' = None
    /\ stats x' = stats x /\ config x' = config x
    /\ journal x' = journal x ++ map ContextClosed (contexts x)
                      ++ match browser x with
                         | Some _ => [BrowserClosed]
                         | None => []
                         end ++ [DriverStopped]
    /\ (0 < concurrency (config x) -> engine_starts env -> pages_behave env ->
        forall embed_urls,
        exists rs x'',
          extract_batch env embed_urls x' = (Returned rs, x'')
          /\ length rs = length embed_urls
          /\ contexts x'' = seq 0 (Z.to_nat (concurrency (config x)))).
Proof.
  intros Hpw.
  destruct (close_running env x Hpw)
    as (x' & Hrun & Hctx & Hb & _ & Hstats & Hcfg & _ & Hj).
  exists x'. repeat (split; [assumption|]).
  intros Hc Hengine Hpages embed_urls.
  assert (Hc' : 0 < concurrency (config x')) by now rewrite Hcfg.
  destruct (extract_batch_total env embed_urls x' Hc' Hengine Hpages) as (rs & x'' & Hagain).
  { now left. }
  destruct (extract_batch_pool env _ _ _ _ Hc' Hagain) as (new & _ & _ & _ & Hctx'' & _).
  destruct (extract_batch_run env _ _ _ _ Hc' Hagain) as (_ & _ & new' & _ & _ & _ & _ & Hret).
  destruct (Hret rs eq_refl) as (_ & _ & _ & _ & _ & Hrs & _).
  destruct (outcomes_pointwise _ _ _ Hrs) as [Hlen _].
  exists rs, x''. split; [exact Hagain|]. split; [exact Hlen|].
  rewrite Hctx'', Hb, Hctx, Hcfg. reflexivity.
Qed.

Lemma close_then_extract_again_witness :
  exists x',
    close (browser_with three_pages)
      (snd (extract (browser_with three_pages) three_embeds (init small_config)))
    = (Returned tt, x')
    /\ contexts x' = []
    /\ stats x' = stats (snd (extract (browser_with three_pages) three_embeds
                                (init small_config))).
Proof.
  destruct (close_then_extract_again (browser_with three_pages)
              (snd (extract (browser_with three_pages) three_embeds (init small_config))))
    as (x' & Hrun & Hctx & _ & Hstats & _).
  - reflexivity.
  - exists x'. now repeat split.
Defined.

(** ** One-time extraction: [extract_m3u8] *)

Section Driver.

Variable env : environment.

Lemma batch_loop_same_pool embed_urls starts : forall results x o x',
  batch_loop env embed_urls starts results x = (o, x') -> same_pool x x'.
Proof.
  induction starts as [|k starts IH]; intros results x o x' Hrun.
  - injection Hrun as <- <-. apply same_pool_refl.
  - cbn [batch_loop] in Hrun. unfold bind at 1, get in Hrun. unfold bind at 1 in Hrun.
    destruct (make_tasks 0 _ x) as [[tasks|e] x0] eqn:Htasks.
    2:{ destruct (make_tasks_run _ _ _ _ _ Htasks) as [-> _].
        injection Hrun as <- <-. apply same_pool_refl. }
    destruct (make_tasks_run _ _ _ _ _ Htasks) as [-> _].
    unfold bind at 1 in Hrun.
    destruct (gather env tasks x) as [[brs|e] x1] eqn:Hgather.
    + destruct (gather_run env _ _ _ _ Hgather) as (Hpool & _).
      eapply same_pool_trans; [exact Hpool | eapply IH; exact Hrun].
    + destruct (gather_run env _ _ _ _ Hgather) as (Hpool & _).
      now injection Hrun as <- <-.
Qed.

Lemma pass_same_pool embed_urls x o x' :
  (modify (record (Pass embed_urls));;
   x <- get;;
   starts <- lift (range 0 (Z.of_nat (length embed_urls)) (concurrency (config x)));;
   batch_loop env embed_urls starts []) x = (o, x') ->
  same_pool x x'.
Proof.
  unfold bind at 1, modify. unfold bind at 1, get. unfold bind at 1, lift.
  destruct (range 0 _ _) as [starts|e].
  - intros Hrun. apply batch_loop_same_pool in Hrun.
    eapply same_pool_trans; [|exact Hrun]. now repeat split.
  - intros [= <- <-]. now repeat split.
Qed.

Lemma initialize_driver x :
  start_error env = None ->
  playwright (snd (initialize env x)) = Some true.
Proof.
  intros Hstart. unfold initialize. rewrite Hstart.
  unfold bind at 1, modify. destruct (launch_error env); [reflexivity|].
  unfold bind at 1, modify. unfold bind at 1, get.
  now rewrite (proj1 (new_contexts_any env _ _)).
Qed.

Lemma extract_batch_driver embed_urls x :
  start_error env = None ->
  browser x = None \/ playwright x = Some true ->
  playwright (snd (extract_batch env embed_urls x)) = Some true.
Proof.
  intros Hstart Hx. unfold extract_batch. unfold bind at 1, get. unfold bind at 1.
  destruct (browser x) as [[]|] eqn:Hb.
  - destruct Hx as [Hx|Hx]; [discriminate|]. unfold ret at 1.
    match goal with |- playwright (snd (?m x)) = _ =>
      destruct (m x) as [o x'] eqn:Hrun end.
    apply pass_same_pool in Hrun. destruct Hrun as (_ & Hpw & _). simpl. congruence.
  - pose proof (initialize_driver x Hstart) as Hinit.
    destruct (initialize env x) as [[[]|e] x0]; [|exact Hinit].
    simpl in Hinit.
    match goal with |- playwright (snd (?m x0)) = _ =>
      destruct (m x0) as [o x'] eqn:Hrun end.
    apply pass_same_pool in Hrun. destruct Hrun as (_ & Hpw & _). simpl. congruence.
Qed.

Lemma extract_driver embed_urls x :
  start_error env = None ->
  browser x = None \/ playwright x = Some true ->
  playwright (snd (extract env embed_urls x)) = Some true.
Proof.
  intros Hstart Hx.
  destruct (extract env embed_urls x) as [o x'] eqn:Hrun. simpl.
  pose proof (extract_batch_driver embed_urls x Hstart Hx) as Hfirst.
  destruct (extract_run env _ _ _ _ Hrun) as [(e & Hb & _)|(first & x1 & Hb & Hcase)];
    rewrite Hb in Hfirst; simpl in Hfirst; [exact Hfirst|].
  destruct Hcase as [(_ & _ & ->)|(_ & _ & o2 & Hsecond & _)]; [exact Hfirst|].
  pose proof (extract_batch_driver (retry_urls_of first) x1 Hstart (or_intror Hfirst))
    as Hretry.
  now rewrite Hsecond in Hretry.
Qed.

End Driver.

(** X12: [extract_m3u8] builds an extractor, runs [extract] and closes.
    When the driver starts, it returns what [extract] returns and raises
    what [extract] raises, and in both cases the pool has been released by
    the time it is back.  When the driver does not start, the error that
    comes out is the AttributeError of the cleanup, not the startup
    error. *)
Theorem extract_m3u8_outcome env embed_urls cfg :
  (start_error env = None ->
   fst (extract_m3u8 env embed_urls cfg) = fst (extract env embed_urls (init cfg))
   /\ contexts (snd (extract_m3u8 env embed_urls cfg)) = []
   /\ browser (snd (extract_m3u8 env embed_urls cfg)) = None
   /\ playwright (snd (extract_m3u8 env embed_urls cfg)) = Some false
   /\ stats (snd (extract_m3u8 env embed_urls cfg))
      = stats (snd (extract env embed_urls (init cfg))))
  /\ (forall e,
        start_error env = Some e ->
        fst (extract_m3u8 env embed_urls cfg)
        = Raised (AttributeError "'M3U8Extractor' object has no attribute 'playwright'")).
Proof.
  split.
  - intros Hstart.
    pose proof (extract_driver env embed_urls (init cfg) Hstart (or_introl eq_refl)) as Hpw.
    assert (Hm : exists x2,
      extract_m3u8 env embed_urls cfg = (fst (extract env embed_urls (init cfg)), x2)
      /\ contexts x2 = [] /\ browser x2 = None /\ playwright x2 = Some false
      /\ stats x2 = stats (snd (extract env embed_urls (init cfg)))).
    { unfold extract_m3u8, try_except. unfold bind at 1.
      destruct (extract env embed_urls (init cfg)) as [[rs|e] x1]; simpl in Hpw;
        destruct (close_running env x1 Hpw)
          as (x2 & Hclose & Hctx & Hb & Hpw2 & Hstats & _);
        unfold bind at 1; rewrite Hclose; exists x2; now repeat split. }
    destruct Hm as (x2 & -> & Hm). exact (conj eq_refl Hm).
  - intros e He. unfold extract_m3u8, try_except, extract, extract_batch, bind, get.
    simpl. unfold initialize. rewrite He. reflexivity.
Qed.

Lemma extract_m3u8_outcome_witness :
  fst (extract_m3u8 (browser_with three_pages) three_embeds small_config)
  = fst (extract (browser_with three_pages) three_embeds (init small_config)).
Proof.
  apply (proj1 (extract_m3u8_outcome (browser_with three_pages) three_embeds small_config)).
  reflexivity.
Defined.

(** ** The constructor *)

Lemma merged_config_lookup config key :
  merged_config config !! key
  = match config with
    | Some c => match c !! key with
                | Some v => Some v
                | None => default_dict !! key
                end
    | None => default_dict !! key
    end.
Proof.
  unfold merged_config. rewrite lookup_union.
  destruct config as [c|].
  - destruct (c !! key) as [v|]; now destruct (default_dict !! key).
  - rewrite lookup_empty. now destruct (default_dict !! key).
Qed.

(** X1: the constructor merges the caller's dictionary over the defaults.
    Every entry of the caller's dictionary is kept as given, also one under
    a key the extractor never reads; a key the caller leaves out has its
    default; so each of the six keys the methods read is present whatever
    the caller passes, and no argument, [None] and the empty dictionary all
    give the default configuration: 20000 ms, ten contexts, one retry, the
    three patterns, quiet and headless. *)
Theorem constructor_merges_over_defaults (config : option (gmap string py_value)) :
  (forall c key v, config = Some c -> c !! key = Some v ->
     merged_config config !! key = Some v)
  /\ (forall key, (forall c, config = Some c -> c !! key = None) ->
        merged_config config !! key = default_dict !! key)
  /\ (forall key,
        In key ["timeout"; "concurrency"; "retries"; "verbose";
                "m3u8_patterns"; "headless"] ->
        is_Some (merged_config config !! key))
  /\ (config = None \/ config = Some ∅ ->
      M3U8Extractor config = Some (init default_config)).
Proof.
  repeat split.
  - intros c key v -> Hk. rewrite merged_config_lookup, Hk. reflexivity.
  - intros key Hk. rewrite merged_config_lookup.
    destruct config as [c|]; [|reflexivity].
    now rewrite (Hk c eq_refl).
  - intros key Hin. rewrite merged_config_lookup.
    assert (Hd : is_Some (default_dict !! key)).
    { simpl in Hin.
      destruct Hin as [<-|[<-|[<-|[<-|[<-|[<-|[]]]]]]]; vm_compute; eauto. }
    destruct config as [c|]; [|exact Hd].
    destruct (c !! key); eauto.
  - intros [-> | ->]; vm_compute; reflexivity.
Qed.

Lemma constructor_merges_over_defaults_witness :
  merged_config (Some streamed_dict) !! "verbose" = Some (PyBool true)
  /\ merged_config (Some streamed_dict) !! "headless" = Some (PyBool true)
  /\ M3U8Extractor None = Some (init default_config).
Proof.
  destruct (constructor_merges_over_defaults (Some streamed_dict))
    as (Hkeep & Hdef & _ & _).
  destruct (constructor_merges_over_defaults None) as (_ & _ & _ & Hnone).
  split; [|split].
  - apply (Hkeep streamed_dict); [reflexivity | vm_compute; reflexivity].
  - rewrite Hdef; [vm_compute; reflexivity|].
    intros c [= <-]. vm_compute; reflexivity.
  - apply Hnone. left; reflexivity.
Defined.

(** ** The example driver *)

Lemma constructor_streamed :
  M3U8Extractor (Some streamed_dict) = Some (init streamed_config).
Proof. vm_compute. reflexivity. Qed.

Section Whole.

Variable env : environment.

Lemma extract_total embed_urls x :
  0 < concurrency (config x) -> engine_starts env -> pages_behave env -> usable x ->
  exists rs x', extract env embed_urls x = (Returned rs, x').
Proof.
  intros Hc Hengine Hpages Husable.
  destruct (extract_batch_total env embed_urls x Hc Hengine Hpages Husable)
    as (first & x1 & Hfirst).
  destruct (extract_batch_run env _ _ _ _ Hc Hfirst) as (Hcfg & _ & new & _ & _ & _ & _ & Hret).
  destruct (Hret first eq_refl) as (_ & _ & _ & _ & _ & _ & _ & Hctx).
  unfold extract. unfold bind at 1. rewrite Hfirst. unfold bind at 1, get.
  destruct (0 <? retries (config x1)); [|eexists _, _; reflexivity].
  destruct (filter (fun r => success r = false) first) as [|r0 failed];
    [eexists _, _; reflexivity|].
  unfold bind.
  destruct (extract_batch_total env (map embedUrl (r0 :: failed)) x1)
    as (retry & x2 & ->); auto.
  - now rewrite Hcfg.
  - right. now apply Hctx.
  - eexists _, _. reflexivity.
Qed.

Lemma extract_urls embed_urls x rs x' :
  0 < concurrency (config x) ->
  extract env embed_urls x = (Returned rs, x') ->
  map embedUrl rs = embed_urls.
Proof.
  intros Hc Hrun.
  destruct (extract_run env _ _ _ _ Hrun) as [(e & _ & He)|(first & x1 & Hfirst & Hcase)];
    [discriminate|].
  destruct (extract_batch_run env _ _ _ _ Hc Hfirst)
    as (_ & _ & new1 & _ & _ & _ & _ & Hret1).
  destruct (Hret1 first eq_refl) as (_ & _ & _ & _ & _ & Hrs1 & _).
  pose proof (outcomes_urls env _ _ _ _ Hrs1) as Hurls.
  destruct Hcase as [(_ & [= ->] & _)|(_ & _ & o2 & _ & Ho)]; [exact Hurls|].
  destruct o2 as [retry|e]; [|discriminate]. injection Ho as ->.
  rewrite merge_map, map_map, <- Hurls. apply map_ext. intros r. apply superseded_url.
Qed.

End Whole.

Lemma next_source_first sources url s :
  next_source sources url = Some s -> first_with sources url s.
Proof.
  unfold next_source, first_with.
  induction sources as [|s0 sources IH]; simpl; [discriminate|].
  destruct (String.eqb_spec (src_embedUrl s0) url) as [Heq|Hne].
  - intros [= <-]. exists [], sources. repeat split; auto.
  - intros Hf. destruct (IH Hf) as (before & after & -> & Hu & Hb).
    exists (s0 :: before), after. repeat split; auto.
Qed.

Lemma next_source_listed sources url :
  In url (map src_embedUrl sources) -> is_Some (next_source sources url).
Proof.
  unfold next_source.
  induction sources as [|s0 sources IH]; simpl; [tauto|].
  destruct (String.eqb_spec (src_embedUrl s0) url) as [Heq|Hne]; [eauto|].
  intros [H|H]; [contradiction | auto].
Qed.

Lemma format_stream_reports sources r o :
  format_stream sources r = Some o -> reports sources r o.
Proof.
  unfold format_stream, reports.
  destruct (next_source sources (embedUrl r)) as [s|] eqn:Hs; simpl; [|discriminate].
  intros [= <-]. exists s. split; [now apply next_source_first | reflexivity].
Qed.

Lemma mapM_listed {A B} (f : A -> option B) (l : list A) :
  Forall (fun a => is_Some (f a)) l -> is_Some (mapM f l).
Proof.
  intros H. apply mapM_is_Some. exact H.
Qed.

Lemma format_results_listed sources st results :
  results <> [] ->
  incl (map embedUrl results) (map src_embedUrl sources) ->
  exists streams,
    format_results sources st results = Some streams
    /\ Forall2 (reports sources) (filter (fun r => success r = true) results) streams.
Proof.
  intros Hne Hincl. unfold format_results.
  set (won := filter (fun r => success r = true) results).
  assert (Hwon : Forall (fun r => is_Some (next_source sources (embedUrl r))) won).
  { apply Forall_forall. intros r Hr. apply next_source_listed, Hincl.
    apply in_map. apply list_elem_of_In.
    apply list_elem_of_filter in Hr. tauto. }
  assert (Hshow : show_successful sources won = Some tt).
  { unfold show_successful. destruct won as [|r0 won'] eqn:Hw; [reflexivity|].
    rewrite <- Hw in *.
    destruct (mapM_listed (fun r => next_source sources (embedUrl r)) (slice won 0 10))
      as [l ->]; [|reflexivity].
    unfold slice. apply Forall_take, Forall_drop. exact Hwon. }
  rewrite Hshow. simpl.
  assert (Hstat : show_statistics st results = Some tt).
  { unfold show_statistics, percentage.
    destruct results as [|r0 rs]; [contradiction|]. reflexivity. }
  rewrite Hstat. simpl.
  destruct (mapM_listed (format_stream sources) won) as [streams Hm].
  { eapply Forall_impl; [exact Hwon|]. intros r [s Hs]. unfold format_stream.
    rewrite Hs. simpl. eauto. }
  exists streams. split; [exact Hm|].
  apply mapM_Some in Hm. eapply Forall2_impl; [exact Hm|].
  intros r o. apply format_stream_reports.
Qed.

(** X13: [extract_streams] on a non-empty list of sources, with an engine
    that starts and pages that open and close, extracts from the sources'
    embed URLs in order with the configuration of the example, closes the
    extractor, and returns one entry per successful result, in result
    order: the URL, the stream URL and the time of the result, and the
    match, source and source id of the first source that has the result's
    embed URL.  Whatever the extractor raises is swallowed: the function
    then returns the empty list, and the extractor is left as [extract]
    left it, without a call of [close]. *)
Theorem extract_streams_reports_successes env (s0 : source) (rest : list source) :
  let sources := s0 :: rest in
  (engine_starts env -> pages_behave env ->
   exists results x1 x2 streams,
     extract env (map src_embedUrl sources) (init streamed_config)
     = (Returned results, x1)
     /\ close env x1 = (Returned tt, x2)
     /\ extract_streams env (Returned sources) = (Some streams, Some x2)
     /\ map embedUrl results = map src_embedUrl sources
     /\ Forall2 (reports sources) (filter (fun r => success r = true) results) streams
     /\ length streams = wins results
     /\ browser x2 = None /\ contexts x2 = [])
  /\ (forall e x1,
        extract env (map src_embedUrl sources) (init streamed_config) = (Raised e, x1) ->
        extract_streams env (Returned sources) = (Some [], Some x1)).
Proof.
  intros sources. split.
  - intros Hengine Hpages.
    destruct (extract_total env (map src_embedUrl sources) (init streamed_config))
      as (results & x1 & Hrun); auto.
    { reflexivity. } { now left. }
    assert (Hurls : map embedUrl results = map src_embedUrl sources).
    { apply (extract_urls env _ _ _ _ (eq_refl : 0 < concurrency (config (init streamed_config))) Hrun). }
    pose proof (extract_driver env (map src_embedUrl sources) (init streamed_config)
                  (proj1 Hengine) (or_introl eq_refl)) as Hpw.
    rewrite Hrun in Hpw. simpl in Hpw.
    destruct (close_running env x1 Hpw) as (x2 & Hclose & Hctx & Hb & _).
    destruct (format_results_listed sources (stats x2) results) as (streams & Hf & Hrep).
    { intros ->. discriminate. }
    { rewrite Hurls. intros u Hu. exact Hu. }
    exists results, x1, x2, streams.
    split; [exact Hrun|]. split; [exact Hclose|].
    split.
    { unfold extract_streams. fold sources. unfold sources at 1.
      rewrite Hrun, Hclose, Hf. reflexivity. }
    split; [exact Hurls|]. split; [exact Hrep|].
    split; [|now split].
    apply Forall2_length in Hrep. unfold wins. now rewrite <- Hrep.
  - intros e x1 Hrun. unfold extract_streams. fold sources. unfold sources at 1.
    now rewrite Hrun.
Qed.

Lemma extract_streams_reports_successes_witness :
  exists results x1 x2 streams,
    extract (browser_with twice_pages) (map src_embedUrl twice_sources)
      (init streamed_config) = (Returned results, x1)
    /\ close (browser_with twice_pages) x1 = (Returned tt, x2)
    /\ extract_streams (browser_with twice_pages) (Returned twice_sources)
       = (Some streams, Some x2)
    /\ map embedUrl results = map src_embedUrl twice_sources
    /\ Forall2 (reports twice_sources) (filter (fun r => success r = true) results) streams
    /\ length streams = wins results
    /\ browser x2 = None /\ contexts x2 = [].
Proof.
  apply (extract_streams_reports_successes (browser_with twice_pages)).
  - apply scenario_engine_starts.
  - intros [|[|n]]; now split.
Defined.
